(** * CRExtensionFS: the on-disk life cycle of Chrome-style extensions

    A shallow embedding of [CRExtensionFS] (listing, manifest reading,
    version scanning, the removal flag, the translated manifest and
    [updateEntry]) together with the parts of the JavaScript libraries it
    calls: [String.prototype.split], [Array.prototype.join] and [sort],
    Node's POSIX [path.join], the [semver] package in strict mode and the
    [fs-extra] calls on a directory tree.

    The code runs in a small state and error monad. The state holds the
    disk (a directory tree, and the paths whose removal the operating system
    refuses), the removals that [fs.remove] has started and that have not
    run yet, and the trace of the file-system calls made. A [throw] is the
    [Throw] result, [undefined] is [None].

    [RuntimePaths.CHROME_EXTENSION_INSTALL_PATH] and the two helpers of
    [CRExtension] that [loadTranslatedManifest] calls are parameters.

    The last part embeds the handler of [index.js] that opens the [mailto]
    link of the command line once the mailboxes window has loaded. *)

From Stdlib Require Import String Ascii List NArith ZArith Lia Bool DecimalString
  Permutation.
From Stdlib Require DecimalFacts DecimalN.
Import ListNotations.
Open Scope string_scope.
Set Warnings "-register-all".

(** ** JavaScript strings and arrays *)

Module Str.

(** [s.split(sep)] for a one-character separator: never empty, and the
    pieces between consecutive separators are kept even when empty. *)
Fixpoint split (sep : ascii) (s : string) : list string :=
  match s with
  | EmptyString => [""]
  | String c s' =>
      if Ascii.eqb c sep then "" :: split sep s'
      else match split sep s' with
           | [] => [String c ""]
           | w :: ws => String c w :: ws
           end
  end.

(** [l.join(sep)]. *)
Fixpoint join (sep : string) (l : list string) : string :=
  match l with
  | [] => ""
  | [x] => x
  | x :: l' => x ++ sep ++ join sep l'
  end.

(** Cuts [s] at the first occurrence of [sep]: the text before it and, when
    [sep] occurs, the text after it. *)
Fixpoint cut (sep : ascii) (s : string) : string * option string :=
  match s with
  | EmptyString => ("", None)
  | String c s' =>
      if Ascii.eqb c sep then ("", Some s')
      else let '(a, b) := cut sep s' in (String c a, b)
  end.

Fixpoint all (p : ascii -> bool) (s : string) : bool :=
  match s with
  | EmptyString => true
  | String c s' => p c && all p s'
  end.

Fixpoint any (p : ascii -> bool) (s : string) : bool :=
  match s with
  | EmptyString => false
  | String c s' => p c || any p s'
  end.

End Str.

(** Lookup in an association list keyed by strings: the first binding of a
    name is the one found. *)
Fixpoint assoc {A : Type} (k : string) (l : list (string * A)) : option A :=
  match l with
  | [] => None
  | (k', v) :: l' => if k' =? k then Some v else assoc k l'
  end.

(** ** JSON documents and JavaScript values *)

(** What [JSON.parse] produces. Numbers play no part in the code beyond
    their truthiness, and only the integers are represented. An object lists
    the members of the document in their order. *)
Inductive Json : Type :=
| JNull
| JBool (b : bool)
| JNumber (n : Z)
| JString (s : string)
| JArray (items : list Json)
| JObject (fields : list (string * Json)).

(** A JavaScript value as the code meets them: [None] is [undefined]. *)
Definition JsValue : Type := option Json.

(** What a [throw] carries. *)
Inductive Fault : Type :=
| ENOENT (file : list string)
| ENOTDIR (file : list string)
| EISDIR (file : list string)
| SyntaxError (file : list string)
| TypeError (message : string)
| HelperFault (message : string).

Inductive Result (A : Type) : Type :=
| Ok (a : A)
| Throw (e : Fault).
Arguments Ok {A} a.
Arguments Throw {A} e.

(** [v.key] for one of the manifest keys the code reads
    ([wavebox_extension_id], [version], [default_locale]): a [TypeError] on
    [null], the member of an object (the last one of that name, as
    [JSON.parse] keeps it), [undefined] on every other value (none of these
    keys is a property of a boolean, number, string or array). *)
Definition getProperty (v : Json) (key : string) : Result JsValue :=
  match v with
  | JNull => Throw (TypeError ("Cannot read property '" ++ key ++ "' of null"))
  | JObject fields => Ok (assoc key (rev fields))
  | _ => Ok None
  end.

(** [v || d]: [d] when [v] is [undefined], [null], [false], [0] or the empty
    string. *)
Definition orElse (v : JsValue) (d : Json) : Json :=
  match v with
  | None | Some JNull | Some (JBool false) | Some (JNumber 0%Z)
  | Some (JString "") => d
  | Some j => j
  end.

(** [v !== s] for a string [s]. *)
Definition strictNotEqual (v : JsValue) (s : string) : bool :=
  match v with
  | Some (JString t) => negb (t =? s)
  | _ => true
  end.

(** ** Node's [path] module (POSIX) *)

(** An absolute, normalized path is the list of its segments: [/a/b] is
    [["a"; "b"]] and [/] is [[]]. *)
Definition Path : Type := list string.

Module PathLib.

(** The segment loop of [path.normalize] on an absolute path: empty and [.]
    segments are dropped, [..] removes the segment before it and is dropped
    at the root. [stack] holds the segments kept so far, last first. *)
Fixpoint normalizeSegments (stack : list string) (segs : list string) : Path :=
  match segs with
  | [] => rev stack
  | s :: rest =>
      if (s =? "") || (s =? ".") then normalizeSegments stack rest
      else if s =? ".." then normalizeSegments (tl stack) rest
      else normalizeSegments (s :: stack) rest
  end.

(** [path.join(base, ...args)] for an absolute [base]: the arguments are
    concatenated with [/] and the result is normalized, so a leading [/] of
    an argument does not restart the path. *)
Definition join (base : Path) (args : list string) : Path :=
  normalizeSegments [] (base ++ flat_map (Str.split "/") args)%list.

(** [prefix p q]: [q] is [p] or lies below it. *)
Fixpoint prefix (p q : Path) : bool :=
  match p, q with
  | [], _ => true
  | s :: p', t :: q' => (s =? t) && prefix p' q'
  | _ :: _, [] => false
  end.

End PathLib.

(** ** The [semver] package, strict mode *)

Module Semver.

Definition MAX_LENGTH : nat := 256.
Definition MAX_SAFE_INTEGER : N := 9007199254740991.

Definition isDigit (c : ascii) : bool :=
  let n := N_of_ascii c in (48 <=? n)%N && (n <=? 57)%N.

Definition isLetter (c : ascii) : bool :=
  let n := N_of_ascii c in
  ((65 <=? n)%N && (n <=? 90)%N) || ((97 <=? n)%N && (n <=? 122)%N).

Definition isHyphen (c : ascii) : bool := Ascii.eqb c "-".

Definition isIdentifierChar (c : ascii) : bool :=
  isDigit c || isLetter c || isHyphen c.

(** NUMERICIDENTIFIER: [0], or a digit from 1 to 9 followed by digits. *)
Definition numericIdentifier (s : string) : bool :=
  match s with
  | EmptyString => false
  | String c rest =>
      if Ascii.eqb c "0" then rest =? "" else isDigit c && Str.all isDigit rest
  end.

(** NONNUMERICIDENTIFIER: digits, letters and hyphens with at least one
    letter or hyphen among them. *)
Definition nonNumericIdentifier (s : string) : bool :=
  Str.all isIdentifierChar s && Str.any (fun c => isLetter c || isHyphen c) s.

Definition prereleaseIdentifier (s : string) : bool :=
  numericIdentifier s || nonNumericIdentifier s.

(** BUILDIDENTIFIER: one or more digits, letters and hyphens. *)
Definition buildIdentifier (s : string) : bool :=
  negb (s =? "") && Str.all isIdentifierChar s.

(** The number a run of decimal digits denotes. *)
Fixpoint digitsValue (acc : N) (s : string) : N :=
  match s with
  | EmptyString => acc
  | String c s' => digitsValue (10 * acc + (N_of_ascii c - 48))%N s'
  end.

(** The fields of a [SemVer] object. A prerelease identifier is kept as its
    text: the numeric ones carry no leading zero, so printing the number the
    package stores gives the text back. *)
Record SemVer : Type := mkSemVer {
  major : N;
  minor : N;
  patch : N;
  prerelease : list string;
  build : list string
}.

(** [parse(version)]: at most [MAX_LENGTH] characters matching FULL,
    an optional [v], the three numbers M.m.p, an optional [-] with
    dot-separated prerelease identifiers and an optional [+] with
    dot-separated build identifiers, the three numbers not above
    [MAX_SAFE_INTEGER]. The main version holds neither [-] nor [+] and
    a prerelease holds no [+], so the first [+] starts the build and the
    first [-] before it starts the prerelease. *)
Definition parse (version : string) : option SemVer :=
  if Nat.ltb MAX_LENGTH (String.length version) then None
  else
    let body := match version with
                | String "v" rest => rest
                | _ => version
                end in
    let '(front, buildText) := Str.cut "+" body in
    let '(main, preText) := Str.cut "-" front in
    let buildIds := match buildText with
                    | Some t => Str.split "." t
                    | None => []
                    end in
    let preIds := match preText with
                  | Some t => Str.split "." t
                  | None => []
                  end in
    match Str.split "." main with
    | [a; b; c] =>
        if numericIdentifier a && numericIdentifier b && numericIdentifier c
           && forallb prereleaseIdentifier preIds
           && forallb buildIdentifier buildIds
           && (digitsValue 0 a <=? MAX_SAFE_INTEGER)%N
           && (digitsValue 0 b <=? MAX_SAFE_INTEGER)%N
           && (digitsValue 0 c <=? MAX_SAFE_INTEGER)%N
        then Some (mkSemVer (digitsValue 0 a) (digitsValue 0 b)
                     (digitsValue 0 c) preIds buildIds)
        else None
    | _ => None
    end.

Definition showNumber (n : N) : string := NilZero.string_of_uint (N.to_uint n).

(** [SemVer.prototype.format]: the build is not part of [version]. *)
Definition format (v : SemVer) : string :=
  showNumber (major v) ++ "." ++ showNumber (minor v) ++ "."
  ++ showNumber (patch v)
  ++ match prerelease v with
     | [] => ""
     | ids => "-" ++ Str.join "." ids
     end.

(** [semver.valid(version)]: the canonical version, [None] for [null]. *)
Definition valid (version : string) : option string :=
  match parse version with
  | Some v => Some (format v)
  | None => None
  end.

Definition compareNumbers (a b : N) : comparison := N.compare a b.

(** [compareIdentifiers] on two prerelease identifiers: numbers before
    text, numbers by value, text by code units. (The package compares
    numeric identifiers as doubles, which is exact below 2^53.) *)
Definition compareIdentifiers (a b : string) : comparison :=
  let anum := negb (a =? "") && Str.all isDigit a in
  let bnum := negb (b =? "") && Str.all isDigit b in
  if anum && bnum then compareNumbers (digitsValue 0 a) (digitsValue 0 b)
  else if anum then Lt
  else if bnum then Gt
  else String.compare a b.

(** The loop of [comparePre] once both prereleases are known non-empty. *)
Fixpoint compareIdentifierLists (a b : list string) : comparison :=
  match a, b with
  | [], [] => Eq
  | _ :: _, [] => Gt
  | [], _ :: _ => Lt
  | x :: a', y :: b' =>
      if x =? y then compareIdentifierLists a' b' else compareIdentifiers x y
  end.

Definition comparePre (a b : SemVer) : comparison :=
  match prerelease a, prerelease b with
  | _ :: _, [] => Lt
  | [], _ :: _ => Gt
  | [], [] => Eq
  | pa, pb => compareIdentifierLists pa pb
  end.

Definition compareMain (a b : SemVer) : comparison :=
  match compareNumbers (major a) (major b) with
  | Eq => match compareNumbers (minor a) (minor b) with
          | Eq => compareNumbers (patch a) (patch b)
          | c => c
          end
  | c => c
  end.

Definition compare (a b : SemVer) : comparison :=
  match compareMain a b with
  | Eq => comparePre a b
  | c => c
  end.

(** [semver.gt(a, b)]: both strings are parsed again, and a string that is
    no version makes the call throw. *)
Definition gt (a b : string) : Result bool :=
  match parse a, parse b with
  | Some va, Some vb =>
      Ok match compare va vb with Gt => true | _ => false end
  | None, _ => Throw (TypeError ("Invalid Version: " ++ a))
  | _, None => Throw (TypeError ("Invalid Version: " ++ b))
  end.

End Semver.

(** ** The directory tree *)

(** What a file holds, by what [JSON.parse] makes of it: [Text s] is
    content that is no JSON document (the removal flag's own content, a
    truncated manifest), [Document j] is content that parses to [j]. *)
Inductive Content : Type :=
| Text (s : string)
| Document (j : Json).

Inductive Node : Type :=
| File (content : Content)
| Dir (entries : list (string * Node)).

(** The state of the disk: the tree below [/], and the paths whose removal
    the operating system refuses (permissions, a file in use). *)
Record World : Type := mkWorld {
  tree : Node;
  locked : list Path
}.

Module Tree.

Fixpoint lookup (p : Path) (n : Node) : option Node :=
  match p with
  | [] => Some n
  | s :: p' =>
      match n with
      | Dir entries =>
          match assoc s entries with
          | Some child => lookup p' child
          | None => None
          end
      | File _ => None
      end
  end.

Definition isLocked (locks : list Path) (p : Path) : bool :=
  existsb (fun l => if list_eq_dec string_dec l p then true else false) locks.

Section UpdateEntries.

Variable f : string -> Node -> option Node.

(** The entries of a directory after [f] was applied to each: an entry
    mapped to [None] is dropped. *)
Fixpoint updateEntries (l : list (string * Node)) : list (string * Node) :=
  match l with
  | [] => []
  | (name, child) :: l' =>
      match f name child with
      | Some child' => (name, child') :: updateEntries l'
      | None => updateEntries l'
      end
  end.

End UpdateEntries.

(** What a recursive removal leaves of the node at [here]: [None] when the
    node is gone. Every entry is tried on its own; a locked node stays, and
    so does every directory that still has an entry. *)
Fixpoint prune (locks : list Path) (here : Path) (n : Node) : option Node :=
  match n with
  | File _ => if isLocked locks here then Some n else None
  | Dir entries =>
      match updateEntries
              (fun name child => prune locks (here ++ [name])%list child)
              entries with
      | [] => if isLocked locks here then Some (Dir []) else None
      | kept => Some (Dir kept)
      end
  end.

(** What is left of [n], the node at [here], once the node at [p] below it
    was removed recursively. A path that names nothing removes nothing. *)
Fixpoint removeBelow (locks : list Path) (here p : Path) (n : Node)
    : option Node :=
  match p with
  | [] => prune locks here n
  | s :: p' =>
      match n with
      | File _ => Some n
      | Dir entries =>
          Some (Dir (updateEntries
                       (fun name child =>
                          if name =? s
                          then removeBelow locks (here ++ [s])%list p' child
                          else Some child)
                       entries))
      end
  end.

(** The tree after the recursive removal of [p]; [/] itself always stays. *)
Definition remove (locks : list Path) (p : Path) (t : Node) : Node :=
  match removeBelow locks [] p t with
  | Some t' => t'
  | None => Dir []
  end.

Fixpoint replaceEntry (s : string) (n : Node) (l : list (string * Node))
    : list (string * Node) :=
  match l with
  | [] => []
  | (name, child) :: l' =>
      if name =? s then (name, n) :: l' else (name, child) :: replaceEntry s n l'
  end.

(** The tree with the file at [p] created or overwritten; [None] when the
    directory that should hold it is missing or [p] names a directory. *)
Fixpoint writeFile (p : Path) (c : Content) (n : Node) : option Node :=
  match p, n with
  | [], _ => None
  | _ :: _, File _ => None
  | [s], Dir entries =>
      match assoc s entries with
      | Some (Dir _) => None
      | Some (File _) => Some (Dir (replaceEntry s (File c) entries))
      | None => Some (Dir (entries ++ [(s, File c)])%list)
      end
  | s :: p', Dir entries =>
      match assoc s entries with
      | Some child =>
          match writeFile p' c child with
          | Some child' => Some (Dir (replaceEntry s child' entries))
          | None => None
          end
      | None => None
      end
  end.

End Tree.

(** The recursive removal of [p] on a world. *)
Definition removeFrom (w : World) (p : Path) : World :=
  mkWorld (Tree.remove (locked w) p (tree w)) (locked w).

(** ** Effects: the disk, the removals in flight and the calls made *)

(** The [fs-extra] calls of the code, as a trace. *)
Inductive Call : Type :=
| ReaddirSync (p : Path)
| ReadJsonSync (p : Path)
| ExistsSync (p : Path)
| Remove (p : option Path)
| WriteFileSync (p : Path) (data : string).

(** [fs.remove] is the asynchronous removal of [fs-extra]: the call returns
    at once and the tree changes when the removal runs. [pending] holds the
    removals started and not yet run, oldest first. *)
Record State : Type := mkState {
  world : World;
  pending : list Path;
  calls : list Call
}.

Definition M (A : Type) : Type := State -> Result A * State.

Definition ret {A : Type} (a : A) : M A := fun s => (Ok a, s).

Definition bind {A B : Type} (m : M A) (k : A -> M B) : M B :=
  fun s =>
    match m s with
    | (Ok a, s') => k a s'
    | (Throw e, s') => (Throw e, s')
    end.

(** [try { m } catch (ex) { handler ex }]: what [m] did before it threw
    stays done. *)
Definition tryCatch {A : Type} (m : M A) (handler : Fault -> M A) : M A :=
  fun s =>
    match m s with
    | (Ok a, s') => (Ok a, s')
    | (Throw e, s') => handler e s'
    end.

Definition lift {A : Type} (r : Result A) : M A := fun s => (r, s).

Notation "x <- m ;; k" := (bind m (fun x => k))
  (at level 61, m at next level, right associativity).
Notation "m ;; k" := (bind m (fun _ => k))
  (at level 61, right associativity).

Definition record (c : Call) (s : State) : State :=
  mkState (world s) (pending s) (calls s ++ [c])%list.

(** [l.filter(f)] for a callback with effects. *)
Fixpoint filterM {A : Type} (f : A -> M bool) (l : list A) : M (list A) :=
  match l with
  | [] => ret []
  | x :: l' =>
      keep <- f x ;;
      rest <- filterM f l' ;;
      ret (if keep then x :: rest else rest)
  end.

(** [l.forEach(f)]. *)
Fixpoint forEach {A : Type} (f : A -> M unit) (l : list A) : M unit :=
  match l with
  | [] => ret tt
  | x :: l' => f x ;; forEach f l'
  end.

Module Fs.

Definition readdirSync (p : Path) : M (list string) :=
  fun s =>
    let s' := record (ReaddirSync p) s in
    match Tree.lookup p (tree (world s)) with
    | Some (Dir entries) => (Ok (map fst entries), s')
    | Some (File _) => (Throw (ENOTDIR p), s')
    | None => (Throw (ENOENT p), s')
    end.

Definition readJsonSync (p : Path) : M Json :=
  fun s =>
    let s' := record (ReadJsonSync p) s in
    match Tree.lookup p (tree (world s)) with
    | Some (File (Document j)) => (Ok j, s')
    | Some (File (Text _)) => (Throw (SyntaxError p), s')
    | Some (Dir _) => (Throw (EISDIR p), s')
    | None => (Throw (ENOENT p), s')
    end.

Definition existsSync (p : Path) : M bool :=
  fun s =>
    (Ok match Tree.lookup p (tree (world s)) with
        | Some _ => true
        | None => false
        end,
     record (ExistsSync p) s).

(** [fs.remove(p)] without a callback: the removal of a path is started and
    a promise returned; for [undefined] nothing is started (the promise is
    rejected for the missing path). Nothing is thrown either way, and a
    removal that fails later rejects the promise, which nobody holds. *)
Definition remove (p : option Path) : M unit :=
  fun s =>
    (Ok tt,
     mkState (world s)
       match p with
       | Some q => (pending s ++ [q])%list
       | None => pending s
       end
       (calls s ++ [Remove p])%list).

(** [fs.writeFileSync(p, data)]: the file is created or overwritten, and
    the call throws when it cannot be (whatever the cause, the fault is
    recorded as [ENOENT]). The only data the code writes is the removal
    flag, which is no JSON document. *)
Definition writeFileSync (p : Path) (data : string) : M unit :=
  fun s =>
    match Tree.writeFile p (Text data) (tree (world s)) with
    | Some t =>
        (Ok tt,
         mkState (mkWorld t (locked (world s))) (pending s)
           (calls s ++ [WriteFileSync p data])%list)
    | None => (Throw (ENOENT p), record (WriteFileSync p data) s)
    end.

End Fs.

(** The disk once every removal in flight has run, oldest first. *)
Definition settle (s : State) : World := fold_left removeFrom (pending s) (world s).

(** A state with nothing in flight and no call made yet. *)
Definition quiet (w : World) : State := mkState w [] [].

(** ** [Array.prototype.sort] *)

Module ArrayLib.

(** The language leaves the sorting algorithm open. This is the insertion
    sort of the engine, which it runs on arrays of up to ten elements:
    [element] moves left past every [tmp] with [comparefn(tmp, element) > 0].
    With a comparator that orders the elements, every algorithm returns the
    same array. [sortedRev] is the part already sorted, last element
    first. *)
Fixpoint insertInto {A : Type} (comparefn : A -> A -> Result Z) (element : A)
    (sortedRev : list A) : Result (list A) :=
  match sortedRev with
  | [] => Ok [element]
  | tmp :: rest =>
      match comparefn tmp element with
      | Throw e => Throw e
      | Ok order =>
          if (0 <? order)%Z
          then match insertInto comparefn element rest with
               | Ok rest' => Ok (tmp :: rest')
               | Throw e => Throw e
               end
          else Ok (element :: tmp :: rest)
      end
  end.

Fixpoint sortFrom {A : Type} (comparefn : A -> A -> Result Z)
    (sortedRev todo : list A) : Result (list A) :=
  match todo with
  | [] => Ok (rev sortedRev)
  | element :: todo' =>
      match insertInto comparefn element sortedRev with
      | Ok sortedRev' => sortFrom comparefn sortedRev' todo'
      | Throw e => Throw e
      end
  end.

Definition sort {A : Type} (comparefn : A -> A -> Result Z) (l : list A)
    : Result (list A) :=
  sortFrom comparefn [] l.

End ArrayLib.

(** ** CRExtensionFS *)

Definition UNINSTALL_FLAG : string := "__uninstall__".

(** The object [listInstalledVersions] builds for a version directory. *)
Record VersionInfo : Type := mkVersionInfo {
  extensionId : string;
  version : string;
  revision : string;
  versionString : string
}.

(** [info.path]: the object literal of [listInstalledVersions] sets
    [extensionId], [version], [revision] and [versionString] and no [path],
    so the read yields [undefined]. *)
Definition path (info : VersionInfo) : option Path := None.

(** The first [map] of [listInstalledVersions]: [None] is [undefined]. *)
Definition versionInfoOf (extensionId versionStr : string) : option VersionInfo :=
  let components := Str.split "_" versionStr in
  match Semver.valid (hd "" components) with
  | None => None
  | Some version =>
      let revision := Str.join "_" (skipn 1 components) in
      Some (mkVersionInfo extensionId version revision versionStr)
  end.

(** [.filter((info) => !!info)]. *)
Fixpoint defined {A : Type} (l : list (option A)) : list A :=
  match l with
  | [] => []
  | Some a :: l' => a :: defined l'
  | None :: l' => defined l'
  end.

(** The comparator of [updateEntry]'s sort. *)
Definition newestFirst (a b : VersionInfo) : Result Z :=
  match Semver.gt (version a) (version b) with
  | Ok true => Ok (-1)%Z
  | Ok false => Ok 1%Z
  | Throw e => Throw e
  end.

Section CRExtensionFS.

(** [RuntimePaths.CHROME_EXTENSION_INSTALL_PATH]. *)
Variable CHROME_EXTENSION_INSTALL_PATH : Path.

(** [CRExtension._sanitizePathValue_], used as a path segment: the segment,
    or the fault of the helper or of [path.join] on what it returned. *)
Variable sanitizePathValue : Json -> Result string.

(** [CRExtensionI18n.translatedManifest(messages, manifest)]. *)
Variable translatedManifest : Json -> Json -> Result Json.

Definition listInstalledExtensionIds : M (list string) :=
  tryCatch (Fs.readdirSync CHROME_EXTENSION_INSTALL_PATH) (fun _ => ret []).

Definition readManifest (extensionId versionString : string) : M Json :=
  tryCatch
    (manifest <- Fs.readJsonSync
       (PathLib.join CHROME_EXTENSION_INSTALL_PATH
          [extensionId; versionString; "manifest.json"]) ;;
     ret manifest)
    (fun _ => ret (JObject [])).

(** The callback of the last [filter] of [listInstalledVersions]. *)
Definition manifestMatches (info : VersionInfo) : M bool :=
  manifestInfo <- readManifest (extensionId info) (versionString info) ;;
  declaredId <- lift (getProperty manifestInfo "wavebox_extension_id") ;;
  if strictNotEqual declaredId (extensionId info) then ret false
  else
    declaredVersion <- lift (getProperty manifestInfo "version") ;;
    if strictNotEqual declaredVersion (version info) then ret false
    else ret true.

Definition listInstalledVersions (extensionId : string) : M (list VersionInfo) :=
  versionStrings <-
    tryCatch
      (Fs.readdirSync (PathLib.join CHROME_EXTENSION_INSTALL_PATH [extensionId]))
      (fun _ => ret []) ;;
  versionInfo <-
    filterM manifestMatches
      (defined (map (versionInfoOf extensionId) versionStrings)) ;;
  ret versionInfo.

Definition isSetForRemoval (rootPath : Path) : M bool :=
  Fs.existsSync (PathLib.join rootPath [UNINSTALL_FLAG]).

Definition resolvePath (extensionId versionString : string) : Path :=
  PathLib.join CHROME_EXTENSION_INSTALL_PATH [extensionId; versionString].

Definition loadTranslatedManifest (extensionId versionString locale : string)
    : M Json :=
  let rootPath :=
    PathLib.join CHROME_EXTENSION_INSTALL_PATH [extensionId; versionString] in
  manifest <- Fs.readJsonSync (PathLib.join rootPath ["manifest.json"]) ;;
  messages <-
    tryCatch
      (Fs.readJsonSync
         (PathLib.join rootPath ["_locales"; locale; "messages.json"]))
      (fun _ =>
         tryCatch
           (declared <- lift (getProperty manifest "default_locale") ;;
            defaultLocale <-
              lift (sanitizePathValue (orElse declared (JString "en"))) ;;
            Fs.readJsonSync
              (PathLib.join rootPath
                 ["_locales"; defaultLocale; "messages.json"]))
           (fun _ => ret (JObject []))) ;;
  lift (translatedManifest messages manifest).

(** [undefined] is [None]. *)
Definition updateEntry (extensionId : string) : M (option VersionInfo) :=
  let rootPath := PathLib.join CHROME_EXTENSION_INSTALL_PATH [extensionId] in
  flagged <- isSetForRemoval rootPath ;;
  if flagged then
    tryCatch (Fs.remove (Some rootPath)) (fun _ => ret tt) ;;
    ret None
  else
    versions <- listInstalledVersions extensionId ;;
    if Nat.ltb 1 (List.length versions) then
      sortedVersions <- lift (ArrayLib.sort newestFirst versions) ;;
      let latest := nth_error sortedVersions 0 in
      let remove := skipn 1 sortedVersions in
      forEach
        (fun info => tryCatch (Fs.remove (path info)) (fun _ => ret tt))
        remove ;;
      ret latest
    else if Nat.eqb (List.length versions) 1 then ret (nth_error versions 0)
    else ret None.

Definition setForRemoval (extensionId : string) : M unit :=
  Fs.writeFileSync
    (PathLib.join CHROME_EXTENSION_INSTALL_PATH [extensionId; UNINSTALL_FLAG])
    UNINSTALL_FLAG.

(** One reconciliation of [extensionId] on a quiet disk: what [updateEntry]
    returns, and the disk once the removals it started have run. *)
Definition reconcile (extensionId : string) (w : World)
    : Result (option VersionInfo) * World :=
  let '(r, s) := updateEntry extensionId (quiet w) in (r, settle s).

End CRExtensionFS.

(** ** Computations that only read *)

Definition isRead (c : Call) : bool :=
  match c with
  | ReaddirSync _ | ReadJsonSync _ | ExistsSync _ => true
  | Remove _ | WriteFileSync _ _ => false
  end.

Definition addCalls (s : State) (cs : list Call) : State :=
  mkState (world s) (pending s) (calls s ++ cs)%list.

(** [m] leaves the disk and the removals in flight alone, makes reading
    calls only, and its result depends on the tree alone. *)
Definition ReadOnly {A : Type} (m : M A) : Prop :=
  (forall s, exists cs, forallb isRead cs = true /\ snd (m s) = addCalls s cs)
  /\ (forall s1 s2,
        tree (world s1) = tree (world s2) -> fst (m s1) = fst (m s2)).

(** What a read-only computation returns on the tree [t]. *)
Definition resultOn {A : Type} (m : M A) (t : Node) : Result A :=
  fst (m (quiet (mkWorld t []))).

(** [filterM] on the tree [t], for a callback that only reads. *)
Fixpoint filterOn {A : Type} (f : A -> Node -> Result bool) (t : Node)
    (l : list A) : Result (list A) :=
  match l with
  | [] => Ok []
  | x :: l' =>
      match f x t with
      | Throw e => Throw e
      | Ok keep =>
          match filterOn f t l' with
          | Throw e => Throw e
          | Ok rest => Ok (if keep then x :: rest else rest)
          end
      end
  end.

(** The names [readdirSync] lists at [p], none when it throws. *)
Definition listing (t : Node) (p : Path) : list string :=
  match Tree.lookup p t with
  | Some (Dir entries) => map fst entries
  | _ => []
  end.

(** The document [readJsonSync] reads at [p], when it reads one. *)
Definition documentAt (t : Node) (p : Path) : option Json :=
  match Tree.lookup p t with
  | Some (File (Document j)) => Some j
  | _ => None
  end.

(** The manifest declares the extension id [id] and the version [v], both
    as strings. *)
Definition declares (manifest : Json) (id v : string) : Prop :=
  getProperty manifest "wavebox_extension_id" = Ok (Some (JString id))
  /\ getProperty manifest "version" = Ok (Some (JString v)).

(** The manifest [readManifest] returns for a version directory. *)
Definition manifestOn (ROOT : Path) (t : Node) (extensionId versionString : string)
    : Json :=
  match documentAt t (PathLib.join ROOT [extensionId; versionString; "manifest.json"]) with
  | Some j => j
  | None => JObject []
  end.

(** ** Definitions used in the statements *)

Open Scope list_scope.

(** A segment that [path.normalize] keeps as it is. *)
Definition isName (s : string) : bool :=
  negb ((s =? "") || (s =? ".")) && negb (s =? "..").

(** Nothing at or below [p] is locked. *)
Definition unlockedBelow (locks : list Path) (p : Path) : bool :=
  forallb (fun l => negb (PathLib.prefix p l)) locks.

(** The removal of [p] can complete: [p] is not [/] and nothing at or below
    it is locked. *)
Definition removable (w : World) (p : Path) : bool :=
  match p with
  | [] => false
  | _ :: _ => unlockedBelow (locked w) p
  end.

(** The value [updateEntry] returns once the scan gave [scan]. *)
Definition chosen (scan : Result (list VersionInfo)) : Result (option VersionInfo) :=
  match scan with
  | Throw e => Throw e
  | Ok versions =>
      if Nat.ltb 1 (List.length versions) then
        match ArrayLib.sort newestFirst versions with
        | Ok sortedVersions => Ok (nth_error sortedVersions 0)
        | Throw e => Throw e
        end
      else if Nat.eqb (List.length versions) 1 then Ok (nth_error versions 0)
      else Ok None
  end.

(** The candidates [updateEntry] hands to [fs.remove] once the scan gave
    [scan]: all but the first of the sorted ones. *)
Definition superseded (scan : Result (list VersionInfo)) : list VersionInfo :=
  match scan with
  | Throw _ => []
  | Ok versions =>
      if Nat.ltb 1 (List.length versions) then
        match ArrayLib.sort newestFirst versions with
        | Ok sortedVersions => skipn 1 sortedVersions
        | Throw _ => []
        end
      else []
  end.

(** [a] is newer than [b] by [semver.gt]. *)
Definition newer (a b : VersionInfo) : bool :=
  match Semver.gt (version a) (version b) with
  | Ok true => true
  | _ => false
  end.

(** [semver.gt] orders the entries of [versions]: it returns on each pair,
    no two entries are newer than one another, and an entry not newer than
    a second that is not newer than a third is not newer than the third. *)
Definition ordersVersions (versions : list VersionInfo) : Prop :=
  (forall a b, In a versions -> In b versions ->
               exists c, Semver.gt (version a) (version b) = Ok c)
  /\ (forall a b, In a versions -> In b versions ->
                  newer a b = true -> newer b a = false)
  /\ (forall a b c, In a versions -> In b versions -> In c versions ->
                    newer a b = false -> newer b c = false -> newer a c = false).

(** The path of the removal flag of [extensionId]. *)
Definition flagPath (ROOT : Path) (extensionId : string) : Path :=
  PathLib.join (PathLib.join ROOT [extensionId]) [UNINSTALL_FLAG].

(** [n + 1] reconciliations in a row, each on the disk the one before left
    once its removals had run. *)
Fixpoint reconcileAgain (ROOT : Path) (e : string) (n : nat) (w : World)
    : Result (option VersionInfo) * World :=
  match n with
  | O => reconcile ROOT e w
  | S n' => reconcile ROOT e (snd (reconcileAgain ROOT e n' w))
  end.

(** Some [/]-separated segment of [s] is [..]. *)
Definition hasParentSegment (s : string) : bool :=
  existsb (String.eqb "..") (Str.split "/" s).

(** The fallback bundle as the specification words it: the bundle of the
    manifest's default locale, [en] when it names none, made a safe path
    segment; failing that, the empty bundle. *)
Definition defaultMessagesBySpec (sanitizePathValue : Json -> Result string)
    (t : Node) (rootPath : Path) (manifest : Json) : Json :=
  match getProperty manifest "default_locale" with
  | Throw _ => JObject []
  | Ok declared =>
      match sanitizePathValue (orElse declared (JString "en")) with
      | Throw _ => JObject []
      | Ok defaultLocale =>
          match documentAt t
                  (PathLib.join rootPath
                     ["_locales"; defaultLocale; "messages.json"]) with
          | Some found => found
          | None => JObject []
          end
      end
  end.

(** The message bundle as the specification words it: the bundle of the
    requested locale; failing that, the fallback bundle. *)
Definition messagesBySpec (sanitizePathValue : Json -> Result string)
    (t : Node) (rootPath : Path) (manifest : Json) (locale : string) : Json :=
  match documentAt t (PathLib.join rootPath ["_locales"; locale; "messages.json"]) with
  | Some found => found
  | None => defaultMessagesBySpec sanitizePathValue t rootPath manifest
  end.

(** The extension's root is a directory in which the name of the removal
    flag is free or held by a file: what [setForRemoval] needs. *)
Definition canFlag (t : Node) (rootPath : Path) : bool :=
  match Tree.lookup rootPath t with
  | Some (Dir entries) =>
      match assoc UNINSTALL_FLAG entries with
      | Some (Dir _) => false
      | _ => true
      end
  | _ => false
  end.

(** The node at [p] is a directory. *)
Definition isDirectory (t : Node) (p : Path) : bool :=
  match Tree.lookup p t with
  | Some (Dir _) => true
  | _ => false
  end.

(** The character [sep] does not occur in [s]. *)
Definition lacks (sep : ascii) (s : string) : bool :=
  Str.all (fun c => negb (Ascii.eqb c sep)) s.

(** [cmp] is a three-way comparison that orders the values in [D], with
    ties: swapping the arguments swaps the answer, equal-ranked values
    compare alike with every third, and [Lt] is transitive. *)
Definition weakOrder {A : Type} (D : A -> Prop) (cmp : A -> A -> comparison)
    : Prop :=
  (forall a b, D a -> D b -> cmp b a = CompOpp (cmp a b))
  /\ (forall a b c, D a -> D b -> D c -> cmp a b = Eq -> cmp a c = cmp b c)
  /\ (forall a b c, D a -> D b -> D c ->
                    cmp a b = Lt -> cmp b c = Lt -> cmp a c = Lt).

(** A version as [semver.valid] returns them: it parses, to a version with
    no build whose text it is. *)
Definition canonical (version : string) : Prop :=
  exists v, Semver.parse version = Some v
            /\ Semver.format v = version
            /\ Semver.build v = []
            /\ forallb Semver.prereleaseIdentifier (Semver.prerelease v) = true.

(** ** The command line at start-up

    [index.js] parses [process.argv] with [yargs] once and keeps the result
    in [argv]; the handler of [WB_MAILBOXES_WINDOW_JS_LOADED] reads and
    changes that object each time the mailboxes window has loaded. *)

Module Startup.

(** An entry of [argv._]: [yargs] keeps an argument as a string, or as a
    number when it reads as one. *)
Inductive Positional : Type :=
| Word (s : string)
| Number (n : Z).

(** The two properties of [argv] the handler uses. *)
Record Argv : Type := mkArgv {
  mailto : JsValue;
  positional : list Positional
}.

(** [ToBoolean]. *)
Definition truthy (v : JsValue) : bool :=
  match v with
  | None | Some JNull => false
  | Some (JBool b) => b
  | Some (JNumber n) => negb (n =? 0)%Z
  | Some (JString s) => negb (s =? "")
  | Some (JArray _) | Some (JObject _) => true
  end.

(** [(a) => a.indexOf('mailto') === 0]: a number has no [indexOf]. *)
Definition startsWithMailto (a : Positional) : Result bool :=
  match a with
  | Word s => Ok (String.prefix "mailto" s)
  | Number _ => Throw (TypeError "a.indexOf is not a function")
  end.

(** [Array.prototype.findIndex]: [None] is [-1]. *)
Fixpoint findIndex {A : Type} (predicate : A -> Result bool) (l : list A)
    : Result (option nat) :=
  match l with
  | [] => Ok None
  | x :: l' =>
      match predicate x with
      | Throw e => Throw e
      | Ok true => Ok (Some O)
      | Ok false =>
          match findIndex predicate l' with
          | Throw e => Throw e
          | Ok (Some i) => Ok (Some (S i))
          | Ok None => Ok None
          end
      end
  end.

(** What is handed to [openMailtoLink]. *)
Definition argument (a : option Positional) : JsValue :=
  match a with
  | Some (Word s) => Some (JString s)
  | Some (Number n) => Some (JNumber n)
  | None => None
  end.

(** The handler of [WB_MAILBOXES_WINDOW_JS_LOADED], on [argv] and the calls
    of [openMailtoLink] made so far: [delete argv.mailto] leaves the
    property [undefined], [argv._.splice(1)] keeps the first entry only. *)
Definition onMailboxesWindowJsLoaded (st : Argv * list JsValue)
    : Result (Argv * list JsValue) :=
  let '(argv, opened) := st in
  if truthy (mailto argv) then
    Ok (mkArgv None (positional argv), (opened ++ [mailto argv])%list)
  else
    match findIndex startsWithMailto (positional argv) with
    | Throw e => Throw e
    | Ok None => Ok (argv, opened)
    | Ok (Some index) =>
        Ok (mkArgv (mailto argv) (firstn 1 (positional argv)),
            (opened ++ [argument (nth_error (positional argv) index)])%list)
    end.

(** The window loading [n] times. *)
Fixpoint loaded (n : nat) (st : Argv * list JsValue)
    : Result (Argv * list JsValue) :=
  match n with
  | O => Ok st
  | S n' =>
      match onMailboxesWindowJsLoaded st with
      | Ok st' => loaded n' st'
      | Throw e => Throw e
      end
  end.

(** The entry is a string that does not start with [mailto]. *)
Definition plainWord (a : Positional) : bool :=
  match a with
  | Word s => negb (String.prefix "mailto" s)
  | Number _ => false
  end.


End Startup.

(** ** Disks used in the examples *)

Module Example.

Definition installRoot : Path := ["data"; "extensions"].

Definition manifest (id v : string) : Node :=
  File (Document (JObject [("wavebox_extension_id", JString id);
                           ("version", JString v)])).

Definition versionDir (id v : string) : Node :=
  Dir [("manifest.json", manifest id v)].

Definition flag : Node := File (Text UNINSTALL_FLAG).

(** [/data/extensions] holding [extensions], with [locks] locked. *)
Definition disk (extensions : list (string * Node)) (locks : list Path) : World :=
  mkWorld (Dir [("data", Dir [("extensions", Dir extensions)])]) locks.

(** [ext1] with the versions 1.0.0 and 1.1.0 installed. *)
Definition ext1 : Node :=
  Dir [("1.0.0_r1", versionDir "ext1" "1.0.0");
       ("1.1.0_r1", versionDir "ext1" "1.1.0")].

(** [ext2] flagged for removal, with one directory that is no version. *)
Definition ext2 : Node :=
  Dir [(UNINSTALL_FLAG, flag); ("not-a-version", Dir [])].

(** [ext3]: one valid version and one whose manifest is the document
    [null]. *)
Definition ext3 : Node :=
  Dir [("1.0.0_r1", versionDir "ext3" "1.0.0");
       ("1.1.0_r1", Dir [("manifest.json", File (Document JNull))])].

(** [ext4]: a single version whose manifest is the document [null]. *)
Definition ext4 : Node :=
  Dir [("2.0.0_x", Dir [("manifest.json", File (Document JNull))])].

(** [ext5]: a single valid version next to a directory that is no
    version. *)
Definition ext5 : Node :=
  Dir [("not-a-version", Dir []); ("1.0.0_r1", versionDir "ext5" "1.0.0")].

(** [ext6]: a valid version with a manifest that names a default locale,
    the bundle of that locale and no other. *)
Definition ext6 : Node :=
  Dir [("1.0.0_r1",
        Dir [("manifest.json",
              File (Document
                      (JObject [("wavebox_extension_id", JString "ext6");
                                ("version", JString "1.0.0");
                                ("default_locale", JString "de")])));
             ("_locales",
              Dir [("de",
                    Dir [("messages.json",
                          File (Document
                                  (JObject
                                     [("appName",
                                       JObject [("message",
                                                 JString "Erweiterung")])])))])])])].

(** Stand-ins for the two helpers of [CRExtension] where an example needs
    concrete ones: a string is its own path segment, and the translation is
    the manifest as it is. *)
Definition sanitize (v : Json) : Result string :=
  match v with
  | JString s => Ok s
  | _ => Throw (HelperFault "not a string")
  end.

Definition translate (messages manifest : Json) : Result Json := Ok manifest.

End Example.

(** * Proofs *)

Create HintDb readonly.

Lemma addCalls_nil (s : State) : addCalls s [] = s.
Proof. destruct s; unfold addCalls; simpl. now rewrite app_nil_r. Qed.

Lemma addCalls_app (s : State) (a b : list Call) :
  addCalls (addCalls s a) b = addCalls s (a ++ b).
Proof. unfold addCalls; simpl. now rewrite app_assoc. Qed.

Lemma record_addCalls (c : Call) (s : State) : record c s = addCalls s [c].
Proof. reflexivity. Qed.

Lemma ReadOnly_result {A : Type} (m : M A) (s : State) :
  ReadOnly m -> fst (m s) = resultOn m (tree (world s)).
Proof. intros [_ H]. apply H. reflexivity. Qed.

Lemma ReadOnly_state {A : Type} (m : M A) (s : State) :
  ReadOnly m ->
  world (snd (m s)) = world s /\ pending (snd (m s)) = pending s
  /\ exists cs, forallb isRead cs = true /\ calls (snd (m s)) = (calls s ++ cs)%list.
Proof.
  intros [H _]. destruct (H s) as (cs & Hcs & ->).
  repeat split; eauto.
Qed.

Lemma ReadOnly_ret {A : Type} (a : A) : ReadOnly (ret a).
Proof.
  split.
  - intros s. exists []. split; [reflexivity|]. simpl. now rewrite addCalls_nil.
  - reflexivity.
Qed.

Lemma ReadOnly_lift {A : Type} (r : Result A) : ReadOnly (lift r).
Proof.
  split.
  - intros s. exists []. split; [reflexivity|]. simpl. now rewrite addCalls_nil.
  - reflexivity.
Qed.

Lemma ReadOnly_bind {A B : Type} (m : M A) (k : A -> M B) :
  ReadOnly m -> (forall a, ReadOnly (k a)) -> ReadOnly (bind m k).
Proof.
  intros Hm Hk. split.
  - intros s. destruct Hm as [Hm _]. destruct (Hm s) as (cs & Hcs & Hs).
    unfold bind. destruct (m s) as [[a|e] s']; simpl in *; subst s'.
    + destruct (Hk a) as [Hka _]. destruct (Hka (addCalls s cs)) as (cs' & Hcs' & Hs').
      exists (cs ++ cs')%list. split.
      * rewrite forallb_app, Hcs, Hcs'. reflexivity.
      * rewrite Hs'. apply addCalls_app.
    + exists cs. auto.
  - intros s1 s2 Ht. unfold bind.
    pose proof (ReadOnly_state m s1 Hm) as (W1 & _ & _).
    pose proof (ReadOnly_state m s2 Hm) as (W2 & _ & _).
    destruct Hm as [_ Hm]. specialize (Hm s1 s2 Ht).
    destruct (m s1) as [r1 s1'], (m s2) as [r2 s2']; simpl in *; subst r2.
    destruct r1 as [a|e]; [|reflexivity].
    destruct (Hk a) as [_ Hka]. apply Hka. now rewrite W1, W2.
Qed.

Lemma ReadOnly_tryCatch {A : Type} (m : M A) (h : Fault -> M A) :
  ReadOnly m -> (forall e, ReadOnly (h e)) -> ReadOnly (tryCatch m h).
Proof.
  intros Hm Hh. split.
  - intros s. destruct Hm as [Hm _]. destruct (Hm s) as (cs & Hcs & Hs).
    unfold tryCatch. destruct (m s) as [[a|e] s']; simpl in *; subst s'.
    + exists cs. auto.
    + destruct (Hh e) as [Hhe _]. destruct (Hhe (addCalls s cs)) as (cs' & Hcs' & Hs').
      exists (cs ++ cs')%list. split.
      * rewrite forallb_app, Hcs, Hcs'. reflexivity.
      * rewrite Hs'. apply addCalls_app.
  - intros s1 s2 Ht. unfold tryCatch.
    pose proof (ReadOnly_state m s1 Hm) as (W1 & _ & _).
    pose proof (ReadOnly_state m s2 Hm) as (W2 & _ & _).
    destruct Hm as [_ Hm]. specialize (Hm s1 s2 Ht).
    destruct (m s1) as [r1 s1'], (m s2) as [r2 s2']; simpl in *; subst r2.
    destruct r1 as [a|e]; [reflexivity|].
    destruct (Hh e) as [_ Hhe]. apply Hhe. now rewrite W1, W2.
Qed.

Lemma ReadOnly_readdirSync (p : Path) : ReadOnly (Fs.readdirSync p).
Proof.
  split.
  - intros s. exists [ReaddirSync p]. split; [reflexivity|].
    unfold Fs.readdirSync.
    destruct (Tree.lookup p (tree (world s))) as [[c|es]|]; reflexivity.
  - intros s1 s2 Ht. unfold Fs.readdirSync. rewrite Ht.
    destruct (Tree.lookup p (tree (world s2))) as [[c|es]|]; reflexivity.
Qed.

Lemma ReadOnly_readJsonSync (p : Path) : ReadOnly (Fs.readJsonSync p).
Proof.
  split.
  - intros s. exists [ReadJsonSync p]. split; [reflexivity|].
    unfold Fs.readJsonSync.
    destruct (Tree.lookup p (tree (world s))) as [[[t|j]|es]|]; reflexivity.
  - intros s1 s2 Ht. unfold Fs.readJsonSync. rewrite Ht.
    destruct (Tree.lookup p (tree (world s2))) as [[[t|j]|es]|]; reflexivity.
Qed.

Lemma ReadOnly_existsSync (p : Path) : ReadOnly (Fs.existsSync p).
Proof.
  split.
  - intros s. exists [ExistsSync p]. split; reflexivity.
  - intros s1 s2 Ht. unfold Fs.existsSync. simpl. now rewrite Ht.
Qed.

Lemma ReadOnly_filterM {A : Type} (f : A -> M bool) (l : list A) :
  (forall x, ReadOnly (f x)) -> ReadOnly (filterM f l).
Proof.
  intros Hf. induction l as [|x l IH]; simpl.
  - apply ReadOnly_ret.
  - apply ReadOnly_bind; [apply Hf|]. intros keep.
    apply ReadOnly_bind; [apply IH|]. intros rest. apply ReadOnly_ret.
Qed.


#[local] Hint Resolve ReadOnly_ret ReadOnly_lift ReadOnly_readdirSync
  ReadOnly_readJsonSync ReadOnly_existsSync : readonly.

Lemma filterM_filterOn {A : Type} (f : A -> M bool) (l : list A) (t : Node) :
  (forall x, ReadOnly (f x)) ->
  resultOn (filterM f l) t = filterOn (fun x => resultOn (f x)) t l.
Proof.
  intros Hf. induction l as [|x l IH]; [reflexivity|].
  unfold resultOn in *. simpl. unfold bind at 1.
  pose proof (ReadOnly_state (f x) (quiet (mkWorld t [])) (Hf x)) as (W & _ & _).
  destruct (f x (quiet (mkWorld t []))) as [[keep|e] s'] eqn:E; simpl in *;
    [|reflexivity].
  unfold bind at 1.
  pose proof (ReadOnly_result (filterM f l) s' (ReadOnly_filterM f l Hf)) as R.
  rewrite W in R. simpl in R. unfold resultOn in R. rewrite IH in R.
  destruct (filterM f l s') as [[rest|e] s'']; simpl in *; rewrite <- R;
    reflexivity.
Qed.

Lemma filterOn_Ok {A : Type} (f : A -> Node -> Result bool) (t : Node)
    (l vs : list A) :
  filterOn f t l = Ok vs ->
  forall x, In x vs <-> In x l /\ f x t = Ok true.
Proof.
  revert vs. induction l as [|y l IH]; simpl; intros vs H x.
  - inversion H; subst. simpl. tauto.
  - destruct (f y t) as [keep|e] eqn:Fy; [|discriminate].
    destruct (filterOn f t l) as [rest|e]; [|discriminate].
    inversion H; subst; clear H. specialize (IH rest eq_refl x).
    destruct keep; simpl; rewrite IH; split.
    + intros [->|[H1 H2]]; auto.
    + intros [[->|H1] H2]; auto.
    + intros [H1 H2]; auto.
    + intros [[->|H1] H2]; [congruence|auto].
Qed.

Lemma filterOn_incl {A : Type} (f : A -> Node -> Result bool) (t : Node)
    (l vs : list A) :
  filterOn f t l = Ok vs -> (List.length vs <= List.length l)%nat.
Proof.
  revert vs. induction l as [|y l IH]; simpl; intros vs H.
  - inversion H; subst. simpl. lia.
  - destruct (f y t) as [keep|e]; [|discriminate].
    destruct (filterOn f t l) as [rest|e]; [|discriminate].
    inversion H; subst. specialize (IH rest eq_refl).
    destruct keep; simpl; lia.
Qed.

Lemma filterOn_Throw {A : Type} (f : A -> Node -> Result bool) (t : Node)
    (l : list A) (x : A) (e : Fault) :
  In x l -> f x t = Throw e -> exists e', filterOn f t l = Throw e'.
Proof.
  induction l as [|y l IH]; simpl; [tauto|]. intros [->|Hin] Hx.
  - rewrite Hx. eauto.
  - destruct (f y t); [|eauto]. destruct (IH Hin Hx) as [e' ->]. eauto.
Qed.

Lemma filterOn_Throw_inv {A : Type} (f : A -> Node -> Result bool) (t : Node)
    (l : list A) :
  forall e, filterOn f t l = Throw e ->
            exists x e', In x l /\ f x t = Throw e'.
Proof.
  induction l as [|y l IH]; simpl; intros e H; [discriminate|].
  destruct (f y t) as [keep|e0] eqn:Fy; [|eauto].
  destruct (filterOn f t l) as [rest|e1]; [discriminate|].
  destruct (IH e1 eq_refl) as (x & e' & Hin & Hx). eauto.
Qed.

Lemma In_defined {A : Type} (l : list (option A)) (a : A) :
  In a (defined l) <-> In (Some a) l.
Proof.
  induction l as [|[b|] l IH]; simpl; [tauto| |].
  - rewrite IH. split; intros [H|H]; auto; left; congruence.
  - rewrite IH. split; [auto|]. intros [H|H]; [discriminate|auto].
Qed.

Lemma resultOn_bind {A B : Type} (m : M A) (k : A -> M B) (t : Node) :
  ReadOnly m -> (forall a, ReadOnly (k a)) ->
  resultOn (bind m k) t =
  match resultOn m t with
  | Ok a => resultOn (k a) t
  | Throw e => Throw e
  end.
Proof.
  intros Hm Hk. unfold resultOn at 1 2. unfold bind.
  pose proof (ReadOnly_state m (quiet (mkWorld t [])) Hm) as (W & _ & _).
  destruct (m (quiet (mkWorld t []))) as [[a|e] s']; simpl in *; [|reflexivity].
  rewrite (ReadOnly_result (k a) s' (Hk a)), W. reflexivity.
Qed.

Lemma resultOn_tryCatch {A : Type} (m : M A) (h : Fault -> M A) (t : Node) :
  ReadOnly m -> (forall e, ReadOnly (h e)) ->
  resultOn (tryCatch m h) t =
  match resultOn m t with
  | Ok a => Ok a
  | Throw e => resultOn (h e) t
  end.
Proof.
  intros Hm Hh. unfold resultOn at 1 2. unfold tryCatch.
  pose proof (ReadOnly_state m (quiet (mkWorld t [])) Hm) as (W & _ & _).
  destruct (m (quiet (mkWorld t []))) as [[a|e] s']; simpl in *; [reflexivity|].
  rewrite (ReadOnly_result (h e) s' (Hh e)), W. reflexivity.
Qed.

Section ReadSide.

Variable ROOT : Path.

Lemma ReadOnly_listInstalledExtensionIds :
  ReadOnly (listInstalledExtensionIds ROOT).
Proof. apply ReadOnly_tryCatch; auto with readonly. Qed.

Lemma ReadOnly_readManifest (e v : string) : ReadOnly (readManifest ROOT e v).
Proof.
  apply ReadOnly_tryCatch; auto with readonly.
  apply ReadOnly_bind; auto with readonly.
Qed.

Lemma ReadOnly_manifestMatches (info : VersionInfo) :
  ReadOnly (manifestMatches ROOT info).
Proof.
  apply ReadOnly_bind; [apply ReadOnly_readManifest|]. intros m.
  apply ReadOnly_bind; auto with readonly. intros d.
  destruct (strictNotEqual d (extensionId info)); auto with readonly.
  apply ReadOnly_bind; auto with readonly. intros d'.
  destruct (strictNotEqual d' (version info)); auto with readonly.
Qed.

Lemma ReadOnly_listInstalledVersions (e : string) :
  ReadOnly (listInstalledVersions ROOT e).
Proof.
  apply ReadOnly_bind.
  - apply ReadOnly_tryCatch; auto with readonly.
  - intros names. apply ReadOnly_bind; auto with readonly.
    apply ReadOnly_filterM. apply ReadOnly_manifestMatches.
Qed.

Lemma ReadOnly_isSetForRemoval (p : Path) : ReadOnly (isSetForRemoval p).
Proof. apply ReadOnly_existsSync. Qed.

Lemma readManifest_result (e v : string) (t : Node) :
  resultOn (readManifest ROOT e v) t = Ok (manifestOn ROOT t e v).
Proof.
  unfold resultOn, readManifest, manifestOn, documentAt, tryCatch, bind,
    Fs.readJsonSync. simpl.
  destruct (Tree.lookup _ t) as [[[x|j]|es]|]; reflexivity.
Qed.

Lemma manifestMatches_result (info : VersionInfo) (t : Node) :
  resultOn (manifestMatches ROOT info) t =
  let manifestInfo := manifestOn ROOT t (extensionId info) (versionString info) in
  match getProperty manifestInfo "wavebox_extension_id" with
  | Throw e => Throw e
  | Ok declaredId =>
      if strictNotEqual declaredId (extensionId info) then Ok false
      else match getProperty manifestInfo "version" with
           | Throw e => Throw e
           | Ok declaredVersion =>
               Ok (negb (strictNotEqual declaredVersion (version info)))
           end
  end.
Proof.
  unfold manifestMatches. rewrite resultOn_bind.
  - rewrite readManifest_result. cbv zeta.
    set (m := manifestOn ROOT t (extensionId info) (versionString info)).
    unfold resultOn, bind, lift. simpl.
    destruct (getProperty m "wavebox_extension_id") as [d|e]; simpl; [|reflexivity].
    destruct (strictNotEqual d (extensionId info)); [reflexivity|]. simpl.
    destruct (getProperty m "version") as [d'|e]; simpl; [|reflexivity].
    destruct (strictNotEqual d' (version info)); reflexivity.
  - apply ReadOnly_readManifest.
  - intros m. apply ReadOnly_bind; auto with readonly. intros d.
    destruct (strictNotEqual d (extensionId info)); auto with readonly.
    apply ReadOnly_bind; auto with readonly. intros d'.
    destruct (strictNotEqual d' (version info)); auto with readonly.
Qed.

Lemma strictNotEqual_false (v : JsValue) (s : string) :
  strictNotEqual v s = false <-> v = Some (JString s).
Proof.
  destruct v as [[| | |t| |]|]; simpl; try (split; [discriminate|congruence]).
  rewrite negb_false_iff, String.eqb_eq. split; congruence.
Qed.

Lemma manifestMatches_true (info : VersionInfo) (t : Node) :
  resultOn (manifestMatches ROOT info) t = Ok true <->
  declares (manifestOn ROOT t (extensionId info) (versionString info))
    (extensionId info) (version info).
Proof.
  rewrite manifestMatches_result. cbv zeta. unfold declares.
  set (m := manifestOn ROOT t (extensionId info) (versionString info)).
  destruct (getProperty m "wavebox_extension_id") as [d|e];
    [|split; [discriminate|intros [H _]; discriminate]].
  destruct (strictNotEqual d (extensionId info)) eqn:Ed.
  - split; [discriminate|]. intros [H _]. inversion H; subst.
    simpl in Ed. rewrite String.eqb_refl in Ed. discriminate.
  - apply strictNotEqual_false in Ed. subst d.
    destruct (getProperty m "version") as [d'|e];
      [|split; [discriminate|intros [_ H]; discriminate]].
    destruct (strictNotEqual d' (version info)) eqn:Ev; simpl.
    + split; [discriminate|]. intros [_ H]. inversion H; subst.
      simpl in Ev. rewrite String.eqb_refl in Ev. discriminate.
    + apply strictNotEqual_false in Ev. subst d'. tauto.
Qed.

Lemma manifestMatches_faults (info : VersionInfo) (t : Node) (e : Fault) :
  resultOn (manifestMatches ROOT info) t = Throw e ->
  manifestOn ROOT t (extensionId info) (versionString info) = JNull.
Proof.
  rewrite manifestMatches_result. cbv zeta.
  destruct (manifestOn ROOT t (extensionId info) (versionString info));
    simpl; try reflexivity;
    repeat match goal with
           | |- context [if ?c then _ else _] => destruct c
           end; discriminate.
Qed.

Lemma listInstalledVersions_result (e : string) (t : Node) :
  resultOn (listInstalledVersions ROOT e) t =
  filterOn (fun info => resultOn (manifestMatches ROOT info)) t
    (defined (map (versionInfoOf e) (listing t (PathLib.join ROOT [e])))).
Proof.
  unfold listInstalledVersions. rewrite resultOn_bind.
  - assert (resultOn
              (tryCatch (Fs.readdirSync (PathLib.join ROOT [e])) (fun _ => ret []))
              t = Ok (listing t (PathLib.join ROOT [e]))) as ->.
    { unfold resultOn, tryCatch, Fs.readdirSync, listing. simpl.
      destruct (Tree.lookup _ t) as [[c|es]|]; reflexivity. }
    rewrite resultOn_bind.
    + rewrite filterM_filterOn by apply ReadOnly_manifestMatches.
      destruct (filterOn _ t _); reflexivity.
    + apply ReadOnly_filterM, ReadOnly_manifestMatches.
    + auto with readonly.
  - apply ReadOnly_tryCatch; auto with readonly.
  - intros names. apply ReadOnly_bind; auto with readonly.
    apply ReadOnly_filterM, ReadOnly_manifestMatches.
Qed.

End ReadSide.

(** ** Paths *)

Lemma normalizeSegments_no_parent (stack segs : list string) :
  Forall (fun s => s <> "..") segs ->
  PathLib.normalizeSegments stack segs =
  (rev stack ++ filter (fun s => negb ((s =? "") || (s =? "."))) segs)%list.
Proof.
  intros H. revert stack. induction H as [|s segs Hs _ IH]; intros stack; simpl.
  - now rewrite app_nil_r.
  - destruct ((s =? "") || (s =? ".")) eqn:E; simpl; [apply IH|].
    apply String.eqb_neq in Hs. rewrite Hs, IH. simpl.
    now rewrite <- app_assoc.
Qed.

Lemma isName_not_parent (l : list string) :
  forallb isName l = true -> Forall (fun s => s <> "..") l.
Proof.
  rewrite forallb_forall, Forall_forall. intros H s Hs.
  specialize (H s Hs). unfold isName in H.
  apply andb_true_iff in H as [_ H]. apply negb_true_iff in H.
  now apply String.eqb_neq.
Qed.

Lemma filter_names (l : list string) :
  forallb isName l = true ->
  filter (fun s => negb ((s =? "") || (s =? "."))) l = l.
Proof.
  induction l as [|s l IH]; simpl; [reflexivity|]. intros H.
  apply andb_true_iff in H as [Hs Hl]. unfold isName in Hs.
  apply andb_true_iff in Hs as [Hs _]. rewrite Hs, IH; auto.
Qed.

Lemma normalizeSegments_names (stack segs : list string) :
  forallb isName (rev stack) = true ->
  forallb isName (PathLib.normalizeSegments stack segs) = true.
Proof.
  revert stack. induction segs as [|s segs IH]; intros stack H; simpl; [exact H|].
  destruct ((s =? "") || (s =? ".")) eqn:E; [now apply IH|].
  destruct (s =? "..") eqn:E'.
  - apply IH. destruct stack as [|x stack]; [reflexivity|]. simpl in *.
    rewrite forallb_app in H. now apply andb_true_iff in H as [H _].
  - apply IH. simpl. rewrite forallb_app, H. simpl.
    unfold isName. now rewrite E, E'.
Qed.

Lemma join_names (base : Path) (args : list string) :
  forallb isName (PathLib.join base args) = true.
Proof. apply normalizeSegments_names. reflexivity. Qed.

Lemma join_flag (p : Path) :
  forallb isName p = true ->
  PathLib.join p [UNINSTALL_FLAG] = (p ++ [UNINSTALL_FLAG])%list.
Proof.
  intros H. unfold PathLib.join.
  change (flat_map (Str.split "/") [UNINSTALL_FLAG]) with [UNINSTALL_FLAG].
  assert (forallb isName (p ++ [UNINSTALL_FLAG]) = true) as H'.
  { rewrite forallb_app, H. reflexivity. }
  rewrite normalizeSegments_no_parent by now apply isName_not_parent.
  now rewrite filter_names.
Qed.

Lemma prefix_app (p q : Path) : PathLib.prefix p (p ++ q) = true.
Proof.
  induction p as [|s p IH]; simpl; [reflexivity|].
  now rewrite String.eqb_refl, IH.
Qed.

Lemma prefix_app_l (p q l : Path) :
  PathLib.prefix (p ++ q) l = true -> PathLib.prefix p l = true.
Proof.
  revert l. induction p as [|s p IH]; simpl; intros l H; [reflexivity|].
  destruct l as [|t l]; [discriminate|].
  apply andb_true_iff in H as [H1 H2]. rewrite H1. simpl. now apply IH.
Qed.

(** ** The tree under removal *)

Section NodeInduction.

Variable P : Node -> Prop.
Hypothesis HFile : forall c, P (File c).
Hypothesis HDir :
  forall entries, Forall (fun e => P (snd e)) entries -> P (Dir entries).

Fixpoint Node_nested_ind (n : Node) : P n :=
  match n with
  | File c => HFile c
  | Dir entries =>
      HDir entries
        ((fix go (l : list (string * Node)) : Forall (fun e => P (snd e)) l :=
            match l with
            | [] => Forall_nil _
            | e :: l' => Forall_cons e (Node_nested_ind (snd e)) (go l')
            end) entries)
  end.

End NodeInduction.

Lemma lookup_app (p q : Path) (n : Node) :
  Tree.lookup (p ++ q) n =
  match Tree.lookup p n with
  | Some m => Tree.lookup q m
  | None => None
  end.
Proof.
  revert n. induction p as [|s p IH]; intros n; simpl; [reflexivity|].
  destruct n as [c|es]; [reflexivity|].
  destruct (assoc s es); [apply IH|reflexivity].
Qed.

Lemma unlockedBelow_here (locks : list Path) (p : Path) :
  unlockedBelow locks p = true -> Tree.isLocked locks p = false.
Proof.
  unfold unlockedBelow, Tree.isLocked. induction locks as [|l locks IH]; simpl;
    [reflexivity|].
  intros H. apply andb_true_iff in H as [H1 H2]. rewrite (IH H2).
  destruct (list_eq_dec string_dec l p) as [->|]; [|reflexivity].
  pose proof (prefix_app p []) as E. rewrite app_nil_r in E.
  rewrite E in H1. discriminate.
Qed.

Lemma unlockedBelow_child (locks : list Path) (p q : Path) :
  unlockedBelow locks p = true -> unlockedBelow locks (p ++ q) = true.
Proof.
  unfold unlockedBelow. rewrite !forallb_forall. intros H l Hl.
  specialize (H l Hl). apply negb_true_iff in H. apply negb_true_iff.
  destruct (PathLib.prefix (p ++ q) l) eqn:E; [|reflexivity].
  apply prefix_app_l in E. congruence.
Qed.

Lemma prune_Dir (locks : list Path) (here : Path) (es : list (string * Node)) :
  Tree.prune locks here (Dir es) =
  match Tree.updateEntries
          (fun name child => Tree.prune locks (here ++ [name]) child) es with
  | [] => if Tree.isLocked locks here then Some (Dir []) else None
  | kept => Some (Dir kept)
  end.
Proof. reflexivity. Qed.

Lemma prune_gone (locks : list Path) (n : Node) :
  forall here, unlockedBelow locks here = true -> Tree.prune locks here n = None.
Proof.
  induction n as [c|es IH] using Node_nested_ind; intros here H.
  - simpl. now rewrite unlockedBelow_here.
  - rewrite prune_Dir.
    assert (Tree.updateEntries
              (fun name child => Tree.prune locks (here ++ [name]) child) es
            = []) as ->.
    { induction IH as [|[name child] es Hc _ IHes]; [reflexivity|].
      simpl in *. rewrite Hc by now apply unlockedBelow_child. exact IHes. }
    now rewrite unlockedBelow_here.
Qed.

Lemma updateEntries_idempotent (f : string -> Node -> option Node)
    (es : list (string * Node)) :
  Forall (fun e => forall c, f (fst e) (snd e) = Some c -> f (fst e) c = Some c) es ->
  Tree.updateEntries f (Tree.updateEntries f es) = Tree.updateEntries f es.
Proof.
  induction 1 as [|[name child] es H _ IH]; [reflexivity|]. simpl in *.
  destruct (f name child) as [c|] eqn:E; [|exact IH].
  simpl. rewrite (H c eq_refl), IH. reflexivity.
Qed.

Lemma prune_idempotent (locks : list Path) (n : Node) :
  forall here n', Tree.prune locks here n = Some n' ->
                  Tree.prune locks here n' = Some n'.
Proof.
  induction n as [c|es IH] using Node_nested_ind; intros here n'.
  - simpl. destruct (Tree.isLocked locks here) eqn:E; [|discriminate].
    intros H; inversion H; subst. simpl. now rewrite E.
  - rewrite prune_Dir.
    set (f := fun name child => Tree.prune locks (here ++ [name]) child).
    assert (Tree.updateEntries f (Tree.updateEntries f es)
            = Tree.updateEntries f es) as Hk.
    { apply updateEntries_idempotent.
      apply Forall_forall. intros [name child] Hin c. simpl.
      rewrite Forall_forall in IH. apply (IH (name, child) Hin). }
    destruct (Tree.updateEntries f es) as [|e kept] eqn:E.
    + destruct (Tree.isLocked locks here) eqn:L; [|discriminate].
      intros H; inversion H; subst. rewrite prune_Dir. simpl. now rewrite L.
    + intros H; inversion H; subst. rewrite prune_Dir. fold f. rewrite Hk.
      reflexivity.
Qed.

Lemma removeBelow_gone (locks : list Path) (p : Path) :
  p <> [] ->
  forall here n n',
    unlockedBelow locks (here ++ p) = true ->
    Tree.removeBelow locks here p n = Some n' ->
    Tree.lookup p n' = None.
Proof.
  induction p as [|s p IH]; [congruence|]. intros _ here n n' U H.
  simpl in H. destruct n as [c|es]; inversion H; subst; clear H; [reflexivity|].
  simpl.
  induction es as [|[name child] es IHes]; [reflexivity|]. simpl.
  destruct (name =? s) eqn:E.
  - apply String.eqb_eq in E. subst name.
    destruct (Tree.removeBelow locks (here ++ [s]) p child) as [child'|] eqn:R.
    + simpl. rewrite String.eqb_refl.
      destruct p as [|s' p].
      * simpl in R. rewrite prune_gone in R; [discriminate|exact U].
      * apply (IH ltac:(discriminate) (here ++ [s]) child child'); [|exact R].
        rewrite <- app_assoc. exact U.
    + exact IHes.
  - simpl. rewrite E. exact IHes.
Qed.

Lemma remove_gone (locks : list Path) (p : Path) (t : Node) :
  p <> [] -> unlockedBelow locks p = true ->
  Tree.lookup p (Tree.remove locks p t) = None.
Proof.
  intros Hp U. unfold Tree.remove.
  destruct (Tree.removeBelow locks [] p t) as [t'|] eqn:R.
  - now apply (removeBelow_gone locks p Hp [] t t').
  - destruct p; [congruence|reflexivity].
Qed.

Lemma removeBelow_idempotent (locks : list Path) (p : Path) :
  forall here n n',
    Tree.removeBelow locks here p n = Some n' ->
    Tree.removeBelow locks here p n' = Some n'.
Proof.
  induction p as [|s p IH]; intros here n n' H.
  - simpl in *. now apply (prune_idempotent locks n).
  - simpl in H. destruct n as [c|es]; inversion H; subst; clear H; [reflexivity|].
    simpl. rewrite updateEntries_idempotent; [reflexivity|].
    apply Forall_forall. intros [name child] _ c. simpl.
    destruct (name =? s); [apply IH|congruence].
Qed.

Lemma remove_idempotent (locks : list Path) (p : Path) (t : Node) :
  Tree.remove locks p (Tree.remove locks p t) = Tree.remove locks p t.
Proof.
  unfold Tree.remove at 2 3.
  destruct (Tree.removeBelow locks [] p t) as [t'|] eqn:R.
  - unfold Tree.remove. now rewrite (removeBelow_idempotent locks p [] t t' R).
  - destruct p as [|s p]; [|simpl in R; destruct t; discriminate].
    unfold Tree.remove. simpl.
    destruct (Tree.isLocked locks []); reflexivity.
Qed.

Lemma removeFrom_idempotent (w : World) (p : Path) :
  removeFrom (removeFrom w p) p = removeFrom w p.
Proof. unfold removeFrom. simpl. now rewrite remove_idempotent. Qed.

(** ** What [updateEntry] does *)

Lemma readJsonSync_run (p : Path) (s : State) :
  Fs.readJsonSync p s
  = (match documentAt (tree (world s)) p with
     | Some j => Ok j
     | None =>
         match Tree.lookup p (tree (world s)) with
         | Some (File _) => Throw (SyntaxError p)
         | Some (Dir _) => Throw (EISDIR p)
         | None => Throw (ENOENT p)
         end
     end,
     record (ReadJsonSync p) s).
Proof.
  unfold Fs.readJsonSync, documentAt.
  destruct (Tree.lookup p (tree (world s))) as [[[x|j]|es]|]; reflexivity.
Qed.

Lemma forEach_remove_undefined (l : list VersionInfo) (s : State) :
  forEach (fun info => tryCatch (Fs.remove (path info)) (fun _ => ret tt)) l s
  = (Ok tt,
     mkState (world s) (pending s)
       (calls s ++ map (fun info => Remove (path info)) l)).
Proof.
  revert s. induction l as [|x l IH]; intros s; simpl.
  - rewrite app_nil_r. now destruct s.
  - unfold bind, tryCatch. simpl. rewrite IH. simpl.
    now rewrite <- app_assoc.
Qed.

Section UpdateEntry.

Variable ROOT : Path.

Lemma updateEntry_flagged (e : string) (s : State) :
  Tree.lookup (flagPath ROOT e) (tree (world s)) <> None ->
  updateEntry ROOT e s =
  (Ok None,
   mkState (world s) (pending s ++ [PathLib.join ROOT [e]])
     (calls s ++ [ExistsSync (flagPath ROOT e);
                  Remove (Some (PathLib.join ROOT [e]))])).
Proof.
  intros H. unfold updateEntry, isSetForRemoval, bind, Fs.existsSync.
  fold (flagPath ROOT e).
  destruct (Tree.lookup (flagPath ROOT e) (tree (world s))); [|congruence].
  unfold tryCatch, Fs.remove, ret. simpl. now rewrite <- app_assoc.
Qed.

Lemma updateEntry_unflagged (e : string) (s : State) :
  Tree.lookup (flagPath ROOT e) (tree (world s)) = None ->
  let scan := resultOn (listInstalledVersions ROOT e) (tree (world s)) in
  exists reads,
    forallb isRead reads = true
    /\ updateEntry ROOT e s =
       (chosen scan,
        mkState (world s) (pending s)
          (calls s ++ reads
           ++ map (fun info => Remove (path info)) (superseded scan))).
Proof.
  intros H scan. unfold updateEntry, isSetForRemoval, bind at 1, Fs.existsSync.
  fold (flagPath ROOT e). rewrite H.
  set (s1 := record (ExistsSync (flagPath ROOT e)) s).
  pose proof (ReadOnly_listInstalledVersions ROOT e) as RO.
  pose proof (ReadOnly_result _ s1 RO) as R.
  destruct RO as [RO _]. destruct (RO s1) as (cs & Hcs & Hs).
  change (tree (world s1)) with (tree (world s)) in R. fold scan in R.
  exists (ExistsSync (flagPath ROOT e) :: cs). split; [simpl; exact Hcs|].
  unfold bind at 1.
  destruct (listInstalledVersions ROOT e s1) as [r s2]. simpl in R, Hs.
  subst r s2. unfold chosen, superseded, addCalls, s1, record. simpl.
  assert (forall tl, (calls s ++ [ExistsSync (flagPath ROOT e)]) ++ cs ++ tl
                     = calls s ++ ExistsSync (flagPath ROOT e) :: cs ++ tl) as A.
  { intros tl. now rewrite <- app_assoc. }
  destruct scan as [versions|err]; simpl.
  - destruct (Nat.ltb 1 (List.length versions)).
    + unfold bind at 1, lift.
      destruct (ArrayLib.sort newestFirst versions) as [sorted|err]; simpl.
      * unfold bind. rewrite forEach_remove_undefined. simpl.
        unfold ret. now rewrite <- A, app_assoc.
      * now rewrite <- A, app_nil_r.
    + destruct (Nat.eqb (List.length versions) 1); unfold ret;
        now rewrite <- A, app_nil_r.
  - now rewrite <- A, app_nil_r.
Qed.

Lemma reconcile_flagged (e : string) (w : World) :
  Tree.lookup (flagPath ROOT e) (tree w) <> None ->
  reconcile ROOT e w = (Ok None, removeFrom w (PathLib.join ROOT [e])).
Proof.
  intros H. unfold reconcile. rewrite updateEntry_flagged by exact H.
  reflexivity.
Qed.

Lemma reconcile_unflagged (e : string) (w : World) :
  Tree.lookup (flagPath ROOT e) (tree w) = None ->
  reconcile ROOT e w =
  (chosen (resultOn (listInstalledVersions ROOT e) (tree w)), w).
Proof.
  intros H. unfold reconcile.
  destruct (updateEntry_unflagged e (quiet w) H) as (reads & _ & ->).
  reflexivity.
Qed.

End UpdateEntry.

(** ** The scan, the sort and the paths *)

(** Where the scan returns, it returns the version directories whose name
    starts with a valid version and whose manifest declares the extension
    id and that version, as strings. *)
Lemma listInstalledVersions_candidates (ROOT : Path) (e : string) (t : Node)
    (vs : list VersionInfo) :
  resultOn (listInstalledVersions ROOT e) t = Ok vs ->
  forall info,
    In info vs <->
    exists name,
      In name (listing t (PathLib.join ROOT [e]))
      /\ versionInfoOf e name = Some info
      /\ declares (manifestOn ROOT t e name) e (version info).
Proof.
  rewrite listInstalledVersions_result. intros H info.
  rewrite (filterOn_Ok _ _ _ _ H), In_defined, in_map_iff, manifestMatches_true.
  assert (forall name, versionInfoOf e name = Some info ->
                       extensionId info = e /\ versionString info = name) as V.
  { intros name. unfold versionInfoOf.
    destruct (Semver.valid _); [|discriminate].
    intros E; inversion E; subst; auto. }
  split.
  - intros [(name & E & Hin) D]. exists name.
    destruct (V name E) as [<- <-]. auto.
  - intros (name & Hin & E & D). destruct (V name E) as [<- <-]. eauto.
Qed.

(** The scan faults exactly when some directory with a valid version name
    holds a manifest that is the document [null]. *)
Lemma listInstalledVersions_faults_iff (ROOT : Path) (e : string) (t : Node) :
  (exists err, resultOn (listInstalledVersions ROOT e) t = Throw err) <->
  exists name info,
    In name (listing t (PathLib.join ROOT [e]))
    /\ versionInfoOf e name = Some info
    /\ manifestOn ROOT t e name = JNull.
Proof.
  rewrite listInstalledVersions_result.
  assert (forall name info, versionInfoOf e name = Some info ->
                       extensionId info = e /\ versionString info = name) as V.
  { intros name info. unfold versionInfoOf.
    destruct (Semver.valid _); [|discriminate].
    intros E; inversion E; subst; auto. }
  split.
  - intros [err H].
    destruct (filterOn_Throw_inv _ _ _ _ H) as (info & err' & Hin & Hf).
    apply In_defined, in_map_iff in Hin as (name & E & Hname).
    exists name, info. destruct (V name info E) as [<- <-].
    repeat split; auto. now apply (manifestMatches_faults ROOT info t err').
  - intros (name & info & Hin & E & Hnull).
    destruct (V name info E) as [He Hn].
    apply (filterOn_Throw _ t _ info
             (TypeError "Cannot read property 'wavebox_extension_id' of null")).
    + apply In_defined, in_map_iff. eauto.
    + rewrite manifestMatches_result, He, Hn, Hnull. reflexivity.
Qed.


(** The sort permutes its argument, whatever the comparator answers. *)
Lemma insertInto_Permutation {A : Type} (comparefn : A -> A -> Result Z) (x : A)
    (l r : list A) :
  ArrayLib.insertInto comparefn x l = Ok r -> Permutation (x :: l) r.
Proof.
  revert r. induction l as [|tmp l IH]; simpl; intros r H.
  - inversion H. apply Permutation_refl.
  - destruct (comparefn tmp x) as [order|e]; [|discriminate].
    destruct (0 <? order)%Z.
    + destruct (ArrayLib.insertInto comparefn x l) as [rest|e]; [|discriminate].
      inversion H; subst. eapply perm_trans; [apply perm_swap|].
      apply perm_skip, IH. reflexivity.
    + inversion H. apply Permutation_refl.
Qed.

Lemma sortFrom_Permutation {A : Type} (comparefn : A -> A -> Result Z)
    (todo : list A) :
  forall acc r,
    ArrayLib.sortFrom comparefn acc todo = Ok r -> Permutation (acc ++ todo) r.
Proof.
  induction todo as [|x todo IH]; simpl; intros acc r H.
  - inversion H. rewrite app_nil_r. apply Permutation_rev.
  - destruct (ArrayLib.insertInto comparefn x acc) as [acc'|e] eqn:E;
      [|discriminate].
    apply insertInto_Permutation in E. apply IH in H.
    eapply perm_trans; [|exact H].
    eapply perm_trans; [apply Permutation_sym, Permutation_middle|].
    change (Permutation ((x :: acc) ++ todo) (acc' ++ todo)).
    now apply Permutation_app_tail.
Qed.

Lemma sort_Permutation {A : Type} (comparefn : A -> A -> Result Z) (l r : list A) :
  ArrayLib.sort comparefn l = Ok r -> Permutation l r.
Proof. apply (sortFrom_Permutation comparefn l []). Qed.


Lemma superseded_candidates (versions : list VersionInfo) (v : VersionInfo) :
  In v (superseded (Ok versions)) -> In v versions.
Proof.
  unfold superseded. destruct (Nat.ltb 1 (List.length versions)); [|intros []].
  destruct (ArrayLib.sort newestFirst versions) as [sorted|e] eqn:E; [|intros []].
  apply sort_Permutation in E. intros H.
  apply (Permutation_in v (Permutation_sym E)).
  destruct sorted; [destruct H|]. now right.
Qed.

Lemma scan_of_missing_root (ROOT : Path) (e : string) (t : Node) :
  Tree.lookup (PathLib.join ROOT [e]) t = None ->
  resultOn (listInstalledVersions ROOT e) t = Ok [].
Proof.
  intros H. rewrite listInstalledVersions_result. unfold listing.
  now rewrite H.
Qed.

Lemma flag_of_missing_root (ROOT : Path) (e : string) (t : Node) :
  Tree.lookup (PathLib.join ROOT [e]) t = None ->
  Tree.lookup (flagPath ROOT e) t = None.
Proof.
  intros H. unfold flagPath. rewrite join_flag by apply join_names.
  now rewrite lookup_app, H.
Qed.

Lemma reconcile_settled (ROOT : Path) (e : string) (w : World) :
  snd (reconcile ROOT e (snd (reconcile ROOT e w))) = snd (reconcile ROOT e w).
Proof.
  destruct (Tree.lookup (flagPath ROOT e) (tree w)) as [n|] eqn:F.
  - rewrite (reconcile_flagged ROOT e w) by congruence. simpl.
    set (w1 := removeFrom w (PathLib.join ROOT [e])).
    destruct (Tree.lookup (flagPath ROOT e) (tree w1)) as [n1|] eqn:F1.
    + rewrite (reconcile_flagged ROOT e w1) by congruence. simpl.
      apply removeFrom_idempotent.
    + now rewrite (reconcile_unflagged ROOT e w1 F1).
  - rewrite (reconcile_unflagged ROOT e w F). simpl.
    now rewrite (reconcile_unflagged ROOT e w F).
Qed.

Lemma hasParentSegment_segments (s : string) :
  hasParentSegment s = false -> Forall (fun x => x <> "..") (Str.split "/" s).
Proof.
  unfold hasParentSegment. intros H. apply Forall_forall. intros x Hx ->.
  assert (existsb (String.eqb "..") (Str.split "/" s) = true) as E.
  { apply existsb_exists. exists "..". split; [exact Hx|reflexivity]. }
  congruence.
Qed.

Lemma join_under_base (base : Path) (args : list string) :
  forallb isName base = true ->
  Forall (fun s => hasParentSegment s = false) args ->
  PathLib.prefix base (PathLib.join base args) = true.
Proof.
  intros Hb Ha. unfold PathLib.join.
  rewrite normalizeSegments_no_parent.
  - simpl. rewrite filter_app, filter_names by exact Hb. apply prefix_app.
  - apply Forall_app. split; [now apply isName_not_parent|].
    induction Ha as [|a args Ha _ IH]; simpl; [constructor|].
    apply Forall_app. split; [now apply hasParentSegment_segments|exact IH].
Qed.

Lemma normalizeSegments_skips_empty (a b stack : list string) :
  PathLib.normalizeSegments stack (a ++ "" :: b)
  = PathLib.normalizeSegments stack (a ++ b).
Proof.
  revert stack. induction a as [|s a IH]; intros stack; simpl; [reflexivity|].
  destruct ((s =? "") || (s =? "."))%string; [apply IH|].
  destruct (s =? "..")%string; apply IH.
Qed.

Lemma defaultMessages_run (sanitizePathValue : Json -> Result string)
    (rootPath : Path) (manifest : Json) (s : State) :
  let run :=
    tryCatch
      (declared <- lift (getProperty manifest "default_locale") ;;
       defaultLocale <-
         lift (sanitizePathValue (orElse declared (JString "en"))) ;;
       Fs.readJsonSync
         (PathLib.join rootPath ["_locales"; defaultLocale; "messages.json"]))
      (fun _ => ret (JObject [])) s in
  fst run
  = Ok (defaultMessagesBySpec sanitizePathValue (tree (world s)) rootPath manifest)
  /\ world (snd run) = world s
  /\ pending (snd run) = pending s.
Proof.
  cbv zeta. unfold defaultMessagesBySpec, tryCatch, bind, lift.
  destruct (getProperty manifest "default_locale") as [declared|e1];
    [|simpl; auto].
  destruct (sanitizePathValue (orElse declared (JString "en")))
    as [defaultLocale|e2]; [|simpl; auto].
  rewrite readJsonSync_run.
  destruct (documentAt (tree (world s))
              (PathLib.join rootPath ["_locales"; defaultLocale; "messages.json"]))
    as [found|]; [simpl; auto|].
  destruct (Tree.lookup _ (tree (world s))) as [[c|es]|]; simpl; auto.
Qed.

(** The sort under a comparator that orders the array. *)
Section SortOrder.

Variable A : Type.
Variable comparefn : A -> A -> Result Z.
Variable before : A -> A -> bool.
Variable domain : list A.

Hypothesis comparefn_before :
  forall a b, In a domain -> In b domain ->
              comparefn a b = Ok (if before a b then (-1)%Z else 1%Z).
Hypothesis before_asym :
  forall a b, In a domain -> In b domain -> before a b = true -> before b a = false.
Hypothesis not_before_trans :
  forall a b c, In a domain -> In b domain -> In c domain ->
                before a b = false -> before b c = false -> before a c = false.

Lemma insertInto_ordered (x : A) (sortedRev : list A) :
  In x domain -> incl sortedRev domain ->
  ForallOrdPairs (fun a b => before a b = false) sortedRev ->
  exists r, ArrayLib.insertInto comparefn x sortedRev = Ok r
            /\ ForallOrdPairs (fun a b => before a b = false) r.
Proof.
  intros Hx. induction sortedRev as [|tmp rest IH]; intros Hin Hord; simpl.
  - eexists. split; [reflexivity|]. repeat constructor.
  - assert (In tmp domain) as Ht by (apply Hin; now left).
    assert (incl rest domain) as Hr by (intros y Hy; apply Hin; now right).
    inversion Hord as [|? ? Htmp Hrest]; subst.
    rewrite (comparefn_before tmp x Ht Hx).
    destruct (before tmp x) eqn:B; simpl.
    + eexists. split; [reflexivity|]. constructor; [|exact Hord].
      pose proof (before_asym tmp x Ht Hx B) as Bx.
      constructor; [exact Bx|].
      rewrite Forall_forall in Htmp |- *. intros y Hy.
      apply (not_before_trans x tmp y); auto.
    + destruct (IH Hr Hrest) as (r & E & Hord').
      rewrite E. eexists. split; [reflexivity|]. constructor; [|exact Hord'].
      apply insertInto_Permutation in E.
      rewrite Forall_forall in Htmp |- *. intros y Hy.
      apply (Permutation_in y (Permutation_sym E)) in Hy.
      destruct Hy as [<-|Hy]; auto.
Qed.

Lemma sortFrom_ordered (todo : list A) :
  forall sortedRev,
    incl todo domain -> incl sortedRev domain ->
    ForallOrdPairs (fun a b => before a b = false) sortedRev ->
    exists r, ArrayLib.sortFrom comparefn sortedRev todo = Ok r
              /\ ForallOrdPairs (fun a b => before a b = false) (rev r).
Proof.
  induction todo as [|x todo IH]; intros sortedRev Ht Hs Hord; simpl.
  - eexists. split; [reflexivity|]. now rewrite rev_involutive.
  - assert (In x domain) as Hx by (apply Ht; now left).
    destruct (insertInto_ordered x sortedRev Hx Hs Hord) as (r & E & Hord').
    rewrite E. apply IH; auto.
    + intros y Hy. apply Ht. now right.
    + intros y Hy. apply insertInto_Permutation in E.
      apply (Permutation_in y (Permutation_sym E)) in Hy.
      destruct Hy as [<-|Hy]; auto.
Qed.

Lemma ordered_last (l : list A) (z : A) :
  ForallOrdPairs (fun a b => before a b = false) (l ++ [z]) ->
  Forall (fun a => before a z = false) l.
Proof.
  induction l as [|a l IH]; simpl; intros H; [constructor|].
  inversion H as [|? ? Ha Hl]; subst. constructor; [|now apply IH].
  rewrite Forall_forall in Ha. apply Ha, in_or_app. right. now left.
Qed.

Lemma sort_ordered (l : list A) :
  incl l domain ->
  exists sorted,
    ArrayLib.sort comparefn l = Ok sorted
    /\ forall first rest, sorted = first :: rest ->
                          Forall (fun a => before a first = false) rest.
Proof.
  intros Hl. destruct (sortFrom_ordered l [] Hl) as (r & E & Hord).
  - intros y [].
  - constructor.
  - exists r. split; [exact E|]. intros first rest ->. simpl in Hord.
    apply ordered_last in Hord. rewrite Forall_forall in Hord |- *.
    intros a Ha. apply Hord. now apply in_rev in Ha.
Qed.

End SortOrder.

(** Where [semver.gt] orders the scanned versions, [updateEntry] returns
    one of them that no other is newer than. *)
Lemma updateEntry_returns_a_newest (ROOT : Path) (e : string) (w : World)
    (versions : list VersionInfo) :
  Tree.lookup (flagPath ROOT e) (tree w) = None ->
  fst (listInstalledVersions ROOT e (quiet w)) = Ok versions ->
  versions <> [] ->
  ordersVersions versions ->
  exists latest,
    fst (updateEntry ROOT e (quiet w)) = Ok (Some latest)
    /\ In latest versions
    /\ forall v, In v versions -> newer v latest = false.
Proof.
  intros F V Hne (Hgt & Hasym & Htrans).
  rewrite (ReadOnly_result _ (quiet w) (ReadOnly_listInstalledVersions ROOT e)) in V.
  change (tree (world (quiet w))) with (tree w) in V.
  destruct (updateEntry_unflagged ROOT e (quiet w) F) as (reads & _ & ->).
  change (tree (world (quiet w))) with (tree w). rewrite V. simpl.
  assert (forall a, In a versions -> newer a a = false) as Hrefl.
  { intros a Ha. destruct (newer a a) eqn:N; [|reflexivity].
    now rewrite (Hasym a a Ha Ha N) in N. }
  destruct (Nat.ltb 1 (List.length versions)) eqn:L.
  - destruct (sort_ordered VersionInfo newestFirst newer versions) with (l := versions)
      as (sorted & E & Hfirst); auto.
    + intros a b Ha Hb. unfold newestFirst, newer.
      destruct (Hgt a b Ha Hb) as [c ->]. now destruct c.
    + apply incl_refl.
    + rewrite E. pose proof (sort_Permutation _ _ _ E) as P.
      destruct sorted as [|latest rest].
      * apply Permutation_sym, Permutation_nil in P. congruence.
      * exists latest. split; [reflexivity|].
        assert (In latest versions) as Hl.
        { apply (Permutation_in latest (Permutation_sym P)). now left. }
        split; [exact Hl|]. intros v Hv.
        apply (Permutation_in v P) in Hv. destruct Hv as [<-|Hv]; [auto|].
        specialize (Hfirst latest rest eq_refl).
        rewrite Forall_forall in Hfirst. auto.
  - destruct versions as [|v [|v' versions]]; [congruence| |discriminate].
    simpl. exists v. split; [reflexivity|]. split; [now left|].
    intros v0 [<-|[]]. apply Hrefl. now left.
Qed.

(** [semver.gt] orders the two versions of [ext1], and the entry returned
    there is the newest. *)
Example updateEntry_returns_a_newest_at_ext1 :
  exists latest,
    fst (updateEntry Example.installRoot "ext1"
           (quiet (Example.disk [("ext1", Example.ext1)] [])))
    = Ok (Some latest)
    /\ version latest = "1.1.0".
Proof.
  destruct (updateEntry_returns_a_newest Example.installRoot "ext1"
              (Example.disk [("ext1", Example.ext1)] [])
              [mkVersionInfo "ext1" "1.0.0" "r1" "1.0.0_r1";
               mkVersionInfo "ext1" "1.1.0" "r1" "1.1.0_r1"])
    as (latest & E & Hin & _).
  - reflexivity.
  - vm_compute. reflexivity.
  - discriminate.
  - repeat split.
    + intros a b [<-|[<-|[]]] [<-|[<-|[]]]; vm_compute; eauto.
    + intros a b [<-|[<-|[]]] [<-|[<-|[]]]; vm_compute; congruence.
    + intros a b c [<-|[<-|[]]] [<-|[<-|[]]] [<-|[<-|[]]]; vm_compute;
        congruence.
  - exists latest. split; [exact E|].
    vm_compute in E. inversion E. reflexivity.
Qed.

(** * The claims *)

(** C1 (the code departs from it). On the disk of the scenario, [ext1] with
    [1.0.0_r1] and [1.1.0_r1], [updateEntry] returns the entry of 1.1.0 but
    hands [undefined] to [fs.remove] for the older one: no removal is
    started and both version directories are still there afterwards. *)
Theorem updateEntry_ext1_keeps_the_older_version :
  let w := Example.disk [("ext1", Example.ext1)] [] in
  let s := snd (updateEntry Example.installRoot "ext1" (quiet w)) in
  reconcile Example.installRoot "ext1" w
  = (Ok (Some (mkVersionInfo "ext1" "1.1.0" "r1" "1.1.0_r1")), w)
  /\ pending s = []
  /\ filter (fun c => negb (isRead c)) (calls s) = [Remove None]
  /\ listing (tree (snd (reconcile Example.installRoot "ext1" w)))
       (PathLib.join Example.installRoot ["ext1"])
     = ["1.0.0_r1"; "1.1.0_r1"].
Proof. vm_compute. repeat split. Qed.

(** The entry returned is the newest by precedence, prereleases included:
    [beta.10] is newer than [beta.2], and the release is newer than both. *)
Example updateEntry_returns_the_newest :
  let versions (names : list (string * string)) :=
    Dir (map (fun nv => (fst nv, Example.versionDir "ext1" (snd nv))) names) in
  fst (reconcile Example.installRoot "ext1"
         (Example.disk
            [("ext1", versions [("1.0.0-beta.10_a", "1.0.0-beta.10");
                                ("1.0.0-beta.2_a", "1.0.0-beta.2");
                                ("1.0.0-alpha_a", "1.0.0-alpha")])] []))
  = Ok (Some (mkVersionInfo "ext1" "1.0.0-beta.10" "a" "1.0.0-beta.10_a"))
  /\ fst (reconcile Example.installRoot "ext1"
            (Example.disk
               [("ext1", versions [("1.0.0-beta.10_a", "1.0.0-beta.10");
                                   ("1.0.0_a", "1.0.0");
                                   ("0.9.9_a", "0.9.9")])] []))
     = Ok (Some (mkVersionInfo "ext1" "1.0.0" "a" "1.0.0_a")).
Proof. vm_compute. split; reflexivity. Qed.

(** On every disk, a pass that finds no flag starts no removal, whatever
    the scan returns: each call it makes reads, or is an [fs.remove] of
    [undefined]. *)
Lemma unflagged_pass_removes_nothing (ROOT : Path) (e : string) (w : World) :
  Tree.lookup (flagPath ROOT e) (tree w) = None ->
  let s := snd (updateEntry ROOT e (quiet w)) in
  world s = w
  /\ pending s = []
  /\ Forall (fun c => isRead c = true \/ c = Remove None) (calls s)
  /\ snd (reconcile ROOT e w) = w.
Proof.
  intros F s. subst s. rewrite reconcile_unflagged by exact F.
  destruct (updateEntry_unflagged ROOT e (quiet w) F) as (reads & Hr & ->).
  simpl. repeat split. apply Forall_app. split.
  - apply Forall_forall. intros c Hc. left.
    rewrite forallb_forall in Hr. now apply Hr.
  - apply Forall_forall. intros c Hc. right.
    apply in_map_iff in Hc as (info & <- & _). reflexivity.
Qed.

(** C2, as stated, fails: the read of [manifest.json] is not guarded, and
    for a version directory that does not exist the call throws. *)
Lemma loadTranslatedManifest_faults_without_manifest :
  fst (loadTranslatedManifest Example.installRoot Example.sanitize
         Example.translate "ext1" "9.9.9_r1" "en"
         (quiet (Example.disk [("ext1", Example.ext1)] [])))
  = Throw (ENOENT ["data"; "extensions"; "ext1"; "9.9.9_r1"; "manifest.json"]).
Proof. vm_compute. reflexivity. Qed.

(** C2, amended. When [manifest.json] of the version directory holds a JSON
    document, reading the messages never faults: the bundle of the
    requested locale is used, failing that the bundle of the default locale
    ([en] when the manifest names none), failing that the empty bundle; the
    call returns what [translatedManifest] makes of that bundle and the
    manifest, and the disk is as it was. *)
Theorem loadTranslatedManifest_falls_back
    (ROOT : Path) (sanitizePathValue : Json -> Result string)
    (translatedManifest : Json -> Json -> Result Json)
    (e v locale : string) (s : State) (manifest : Json) :
  documentAt (tree (world s))
    (PathLib.join (PathLib.join ROOT [e; v]) ["manifest.json"]) = Some manifest ->
  let run := loadTranslatedManifest ROOT sanitizePathValue translatedManifest
               e v locale s in
  fst run
  = translatedManifest
      (messagesBySpec sanitizePathValue (tree (world s)) (PathLib.join ROOT [e; v])
         manifest locale)
      manifest
  /\ world (snd run) = world s
  /\ pending (snd run) = pending s.
Proof.
  intros Hm run. subst run.
  set (rootPath := PathLib.join ROOT [e; v]) in *.
  assert (exists s',
             loadTranslatedManifest ROOT sanitizePathValue translatedManifest
               e v locale s
             = (translatedManifest
                  (messagesBySpec sanitizePathValue (tree (world s)) rootPath
                     manifest locale) manifest, s')
             /\ world s' = world s /\ pending s' = pending s)
    as (s' & -> & W & P); [|simpl; auto].
  unfold loadTranslatedManifest, messagesBySpec. fold rootPath.
  unfold bind at 1. rewrite readJsonSync_run, Hm.
  unfold bind at 1, tryCatch at 1. rewrite readJsonSync_run.
  change (tree (world (record _ s))) with (tree (world s)).
  destruct (documentAt (tree (world s))
              (PathLib.join rootPath ["_locales"; locale; "messages.json"]))
    as [found|].
  - unfold lift. eexists. split; [reflexivity|]. simpl. auto.
  - match goal with
    | |- context [tryCatch ?m ?h ?s1] =>
        destruct (defaultMessages_run sanitizePathValue rootPath manifest s1)
          as (R & W & P)
    end.
    destruct (Tree.lookup _ (tree (world s))) as [[c|es]|];
      match goal with
      | |- context [tryCatch ?m ?h ?s1] =>
          destruct (tryCatch m h s1) as [r s2]; simpl in *; subst r;
          unfold lift; eexists; split; [reflexivity|]; auto
      end.
Qed.

(** The theorem at [ext6], asked for the locale [fr]: its manifest names
    the default locale [de], whose bundle is the only one there. *)
Lemma loadTranslatedManifest_falls_back_witness :
  let s := quiet (Example.disk [("ext6", Example.ext6)] []) in
  let manifest := JObject [("wavebox_extension_id", JString "ext6");
                           ("version", JString "1.0.0");
                           ("default_locale", JString "de")] in
  let run := loadTranslatedManifest Example.installRoot Example.sanitize
               Example.translate "ext6" "1.0.0_r1" "fr" s in
  fst run
  = Example.translate
      (messagesBySpec Example.sanitize (tree (world s))
         (PathLib.join Example.installRoot ["ext6"; "1.0.0_r1"]) manifest "fr")
      manifest
  /\ world (snd run) = world s
  /\ pending (snd run) = pending s.
Proof.
  apply (loadTranslatedManifest_falls_back Example.installRoot Example.sanitize
           Example.translate "ext6" "1.0.0_r1" "fr"
           (quiet (Example.disk [("ext6", Example.ext6)] []))).
  vm_compute. reflexivity.
Defined.

(** For [ext6] and the locale [fr] the bundle handed to
    [translatedManifest] is the one of the default locale [de]; for an
    extension without bundles it is the empty one. *)
Example loadTranslatedManifest_bundles :
  fst (loadTranslatedManifest Example.installRoot Example.sanitize
         (fun messages manifest => Ok messages) "ext6" "1.0.0_r1" "fr"
         (quiet (Example.disk [("ext6", Example.ext6)] [])))
  = Ok (JObject [("appName", JObject [("message", JString "Erweiterung")])])
  /\ fst (loadTranslatedManifest Example.installRoot Example.sanitize
            (fun messages manifest => Ok messages) "ext1" "1.0.0_r1" "fr"
            (quiet (Example.disk [("ext1", Example.ext1)] [])))
     = Ok (JObject []).
Proof. vm_compute. split; reflexivity. Qed.

(** C3, as stated, fails: nothing is rejected. With the extension id [..]
    the path [resolvePath] returns lies outside the install root, and
    [readManifest] returns the document it finds there. *)
Lemma resolvePath_leaves_install_root :
  let w := mkWorld (Dir [("data", Dir [("extensions", Dir []);
                                       ("x", Example.versionDir "ext" "1.0.0")])])
             [] in
  resolvePath Example.installRoot ".." "x" = ["data"; "x"]
  /\ PathLib.prefix Example.installRoot
       (resolvePath Example.installRoot ".." "x") = false
  /\ fst (readManifest Example.installRoot ".." "x" (quiet w))
     = Ok (JObject [("wavebox_extension_id", JString "ext");
                    ("version", JString "1.0.0")]).
Proof. vm_compute. repeat split. Qed.

(** C3, amended. The two arguments are joined below the install root with
    [path.join]: a leading [/] of the extension id does not make the path
    absolute, and when neither argument has a [..] segment the path of
    [resolvePath] and the manifest path of [readManifest] lie below the
    install root. No argument is rejected. *)
Theorem resolvePath_stays_below_install_root (ROOT : Path) (e v : string) :
  forallb isName ROOT = true ->
  hasParentSegment e = false ->
  hasParentSegment v = false ->
  PathLib.prefix ROOT (resolvePath ROOT e v) = true
  /\ PathLib.prefix ROOT (PathLib.join ROOT [e; v; "manifest.json"]) = true
  /\ resolvePath ROOT (String "/" e) v = resolvePath ROOT e v
  /\ (forall s, fst (readManifest ROOT e v s)
                = Ok (manifestOn ROOT (tree (world s)) e v)).
Proof.
  intros HR He Hv. repeat split.
  - apply join_under_base; auto.
  - apply join_under_base; auto.
  - unfold resolvePath, PathLib.join. simpl.
    apply normalizeSegments_skips_empty.
  - intros s.
    now rewrite (ReadOnly_result _ s (ReadOnly_readManifest ROOT e v)),
      readManifest_result.
Qed.

(** The theorem at [ext1] and [1.0.0_r1]. *)
Lemma resolvePath_stays_below_install_root_witness :
  PathLib.prefix Example.installRoot
    (resolvePath Example.installRoot "ext1" "1.0.0_r1") = true
  /\ PathLib.prefix Example.installRoot
       (PathLib.join Example.installRoot ["ext1"; "1.0.0_r1"; "manifest.json"])
     = true
  /\ resolvePath Example.installRoot "/ext1" "1.0.0_r1"
     = resolvePath Example.installRoot "ext1" "1.0.0_r1"
  /\ (forall s, fst (readManifest Example.installRoot "ext1" "1.0.0_r1" s)
                = Ok (manifestOn Example.installRoot (tree (world s))
                        "ext1" "1.0.0_r1")).
Proof.
  apply (resolvePath_stays_below_install_root Example.installRoot
           "ext1" "1.0.0_r1"); reflexivity.
Defined.

(** C4 (the code departs from it). [fs.remove] is the asynchronous removal,
    the only call of the file that is not the [Sync] one: when [updateEntry]
    returns [undefined] for the flagged [ext2], with nothing locked, the
    removal is only started and the root of [ext2] is still on the disk. *)
Theorem updateEntry_returns_before_the_removal :
  let w := Example.disk [("ext1", Example.ext1); ("ext2", Example.ext2)] [] in
  let rootPath := PathLib.join Example.installRoot ["ext2"] in
  let s := snd (updateEntry Example.installRoot "ext2" (quiet w)) in
  fst (updateEntry Example.installRoot "ext2" (quiet w)) = Ok None
  /\ removable w rootPath = true
  /\ pending s = [rootPath]
  /\ Tree.lookup rootPath (tree (world s)) = Some Example.ext2.
Proof. vm_compute. repeat split. Qed.

(** What holds for a flagged extension on every disk: [updateEntry] returns
    [undefined] after two calls, the check of the flag and the start of the
    removal of the extension's root; it lists no directory and reads no
    manifest. Once the removal has run, and when nothing stops it, the root
    is gone. *)
Lemma updateEntry_removes_flagged_extension (ROOT : Path) (e : string)
    (w : World) :
  Tree.lookup (flagPath ROOT e) (tree w) <> None ->
  let rootPath := PathLib.join ROOT [e] in
  let s := snd (updateEntry ROOT e (quiet w)) in
  fst (updateEntry ROOT e (quiet w)) = Ok None
  /\ calls s = [ExistsSync (flagPath ROOT e); Remove (Some rootPath)]
  /\ pending s = [rootPath]
  /\ snd (reconcile ROOT e w) = removeFrom w rootPath
  /\ (removable w rootPath = true ->
      Tree.lookup rootPath (tree (snd (reconcile ROOT e w))) = None).
Proof.
  intros F rootPath s. subst s.
  rewrite reconcile_flagged by exact F.
  rewrite updateEntry_flagged by exact F. simpl.
  repeat split. intros R. unfold removable in R. fold rootPath.
  destruct rootPath as [|x p] eqn:E; [discriminate|].
  apply remove_gone; [discriminate|exact R].
Qed.

(** The same at the flagged [ext2]. *)
Lemma updateEntry_removes_flagged_extension_at_ext2 :
  let w := Example.disk [("ext1", Example.ext1); ("ext2", Example.ext2)] [] in
  let rootPath := PathLib.join Example.installRoot ["ext2"] in
  let s := snd (updateEntry Example.installRoot "ext2" (quiet w)) in
  fst (updateEntry Example.installRoot "ext2" (quiet w)) = Ok None
  /\ calls s = [ExistsSync (flagPath Example.installRoot "ext2");
               Remove (Some rootPath)]
  /\ pending s = [rootPath]
  /\ snd (reconcile Example.installRoot "ext2" w) = removeFrom w rootPath
  /\ (removable w rootPath = true ->
      Tree.lookup rootPath (tree (snd (reconcile Example.installRoot "ext2" w)))
      = None).
Proof.
  apply (updateEntry_removes_flagged_extension Example.installRoot "ext2"
           (Example.disk [("ext1", Example.ext1); ("ext2", Example.ext2)] [])).
  vm_compute. discriminate.
Defined.

(** An extension that holds nothing but the flag leaves no trace below the
    install root. *)
Example flagged_extension_leaves_no_trace :
  let w := Example.disk [("ext2", Dir [(UNINSTALL_FLAG, Example.flag)])] [] in
  reconcile Example.installRoot "ext2" w = (Ok None, Example.disk [] []).
Proof. vm_compute. reflexivity. Qed.

(** C5 (the code departs from it). A version directory whose manifest is
    the JSON document [null] is not discarded: reading
    [wavebox_extension_id] of [null] throws, and the scan of [ext3] faults
    instead of returning its valid version 1.0.0. *)
Theorem listInstalledVersions_faults_on_null_manifest :
  fst (listInstalledVersions Example.installRoot "ext3"
         (quiet (Example.disk [("ext3", Example.ext3)] [])))
  = Throw (TypeError "Cannot read property 'wavebox_extension_id' of null").
Proof. vm_compute. reflexivity. Qed.

(** What the scan keeps and what it discards: a manifest that declares
    another version than the name, a name with a leading [v] and a revision
    with an underscore, a manifest that declares [1.2] for [1.2.0], a
    manifest of another extension, a name that is no version and a file. *)
Example listInstalledVersions_keeps_the_matching_directory :
  fst (listInstalledVersions Example.installRoot "ext10"
         (quiet (Example.disk
                   [("ext10",
                     Dir [("2.0.0_abc", Example.versionDir "ext10" "1.9.9");
                          ("v1.0.0_a_b", Example.versionDir "ext10" "1.0.0");
                          ("1.2.0_r", Example.versionDir "ext10" "1.2");
                          ("1.3.0_r", Example.versionDir "other" "1.3.0");
                          ("not-a-version", Dir []);
                          ("1.4.0_r", File (Text "1.4.0"))])] [])))
  = Ok [mkVersionInfo "ext10" "1.0.0" "a_b" "v1.0.0_a_b"]
  /\ fst (listInstalledVersions Example.installRoot "missing"
            (quiet (Example.disk [] [])))
     = Ok [].
Proof. vm_compute. split; reflexivity. Qed.



(** The scan of [ext4], whose only manifest is the document [null],
    throws. *)
Example listInstalledVersions_faults_on_ext4 :
  fst (listInstalledVersions Example.installRoot "ext4"
         (quiet (Example.disk [("ext4", Example.ext4)] [])))
  = Throw (TypeError "Cannot read property 'wavebox_extension_id' of null").
Proof. vm_compute. reflexivity. Qed.



(** C8, as stated, fails on a flagged extension: the pass removes the whole
    root of [ext2], and with it the directory [not-a-version], whose name
    is no version. *)
Lemma removal_pass_deletes_invalid_directory :
  let w := Example.disk [("ext2", Example.ext2)] [] in
  let p := PathLib.join Example.installRoot ["ext2"; "not-a-version"] in
  versionInfoOf "ext2" "not-a-version" = None
  /\ Tree.lookup p (tree w) = Some (Dir [])
  /\ Tree.lookup p (tree (snd (reconcile Example.installRoot "ext2" w))) = None.
Proof. vm_compute. repeat split. Qed.

(** C8, amended. In a pass that finds no removal flag, a directory whose
    name starts with no valid version, or whose manifest does not declare
    the extension id and that version, is no candidate, is not among the
    entries handed to [fs.remove], and is on the disk afterwards as it was
    before. *)
Theorem invalid_directory_survives_unflagged_pass (ROOT : Path) (e : string)
    (w : World) (name : string) :
  Tree.lookup (flagPath ROOT e) (tree w) = None ->
  (forall info, versionInfoOf e name = Some info ->
                ~ declares (manifestOn ROOT (tree w) e name) e (version info)) ->
  let scan := fst (listInstalledVersions ROOT e (quiet w)) in
  (forall versions, scan = Ok versions -> ~ In name (map versionString versions))
  /\ (forall info, In info (superseded scan) ->
                   versionString info <> name
                   /\ exists versions, scan = Ok versions /\ In info versions)
  /\ Tree.lookup (PathLib.join ROOT [e; name])
       (tree (snd (reconcile ROOT e w)))
     = Tree.lookup (PathLib.join ROOT [e; name]) (tree w).
Proof.
  intros F Inv scan. subst scan.
  rewrite (ReadOnly_result _ (quiet w) (ReadOnly_listInstalledVersions ROOT e)).
  change (tree (world (quiet w))) with (tree w).
  assert (forall versions,
             resultOn (listInstalledVersions ROOT e) (tree w) = Ok versions ->
             ~ In name (map versionString versions)) as Hc.
  { intros versions Hs Hin. apply in_map_iff in Hin as (info & Hn & Hin).
    apply (listInstalledVersions_candidates ROOT e (tree w) versions Hs) in Hin
      as (name' & _ & Hv & Hd).
    assert (name' = name) as ->.
    { unfold versionInfoOf in Hv. destruct (Semver.valid _); [|discriminate].
      inversion Hv; subst. reflexivity. }
    exact (Inv info Hv Hd). }
  split; [exact Hc|]. split.
  - destruct (resultOn (listInstalledVersions ROOT e) (tree w)) as [versions|err]
      eqn:Hs; [|intros info []].
    intros info Hin. apply superseded_candidates in Hin. split; [|eauto].
    intros Hn. apply (Hc versions eq_refl). apply in_map_iff. eauto.
  - now rewrite (reconcile_unflagged ROOT e w F).
Qed.

(** The theorem at [ext5] and its directory [not-a-version]. *)
Lemma invalid_directory_survives_unflagged_pass_witness :
  let w := Example.disk [("ext5", Example.ext5)] [] in
  let scan := fst (listInstalledVersions Example.installRoot "ext5" (quiet w)) in
  (forall versions, scan = Ok versions ->
                    ~ In "not-a-version" (map versionString versions))
  /\ (forall info, In info (superseded scan) ->
                   versionString info <> "not-a-version"
                   /\ exists versions, scan = Ok versions /\ In info versions)
  /\ Tree.lookup (PathLib.join Example.installRoot ["ext5"; "not-a-version"])
       (tree (snd (reconcile Example.installRoot "ext5" w)))
     = Tree.lookup (PathLib.join Example.installRoot ["ext5"; "not-a-version"])
         (tree w).
Proof.
  apply (invalid_directory_survives_unflagged_pass Example.installRoot "ext5"
           (Example.disk [("ext5", Example.ext5)] []) "not-a-version").
  - vm_compute. reflexivity.
  - intros info H. vm_compute in H. discriminate.
Defined.

(** An upgrading pass keeps an invalid directory as well: [ext8] has two
    valid versions and a directory whose manifest declares another version
    than its name. *)
Example upgrade_pass_keeps_mismatched_directory :
  let w := Example.disk
             [("ext8", Dir [("1.0.0_r1", Example.versionDir "ext8" "1.0.0");
                            ("2.0.0_abc", Example.versionDir "ext8" "1.9.9");
                            ("1.1.0_r1", Example.versionDir "ext8" "1.1.0")])]
             [] in
  fst (reconcile Example.installRoot "ext8" w)
  = Ok (Some (mkVersionInfo "ext8" "1.1.0" "r1" "1.1.0_r1"))
  /\ map versionString
       (superseded (fst (listInstalledVersions Example.installRoot "ext8" (quiet w))))
     = ["1.0.0_r1"]
  /\ Tree.lookup (PathLib.join Example.installRoot ["ext8"; "2.0.0_abc"])
       (tree (snd (reconcile Example.installRoot "ext8" w)))
     = Some (Example.versionDir "ext8" "1.9.9").
Proof. vm_compute. repeat split. Qed.

(** C9, as stated, fails after a removal that only partly succeeds: with
    the manifest of the one version of [ext7] locked, the first pass deletes
    the flag and returns [undefined]; the second pass finds no flag, returns
    the version that is still there and removes nothing, so the passes do
    not end with the extension gone. *)
Lemma partial_removal_is_not_retried :
  let w := Example.disk
             [("ext7", Dir [(UNINSTALL_FLAG, Example.flag);
                            ("1.0.0_r1", Example.versionDir "ext7" "1.0.0")])]
             [["data"; "extensions"; "ext7"; "1.0.0_r1"; "manifest.json"]] in
  let first := reconcile Example.installRoot "ext7" w in
  let second := reconcile Example.installRoot "ext7" (snd first) in
  fst first = Ok None
  /\ Tree.lookup (flagPath Example.installRoot "ext7") (tree (snd first)) = None
  /\ listing (tree (snd first)) (PathLib.join Example.installRoot ["ext7"])
     = ["1.0.0_r1"]
  /\ fst second = Ok (Some (mkVersionInfo "ext7" "1.0.0" "r1" "1.0.0_r1"))
  /\ snd second = snd first.
Proof. vm_compute. repeat split. Qed.

(** C9, amended. Reconciling again changes nothing: the disk a pass leaves
    is left as it is by every later pass, and from the second pass on every
    pass returns the same value. The first pass returns that value too when
    it found no flag, when the flag is still there afterwards, or when the
    extension's root is gone afterwards. *)
Theorem reconcile_idempotent (ROOT : Path) (e : string) (w : World) :
  let first := reconcile ROOT e w in
  let second := reconcile ROOT e (snd first) in
  snd second = snd first
  /\ (forall n, snd (reconcileAgain ROOT e n w) = snd first)
  /\ (forall n, reconcileAgain ROOT e (S n) w = second)
  /\ (Tree.lookup (flagPath ROOT e) (tree w) = None
      \/ Tree.lookup (flagPath ROOT e) (tree (snd first)) <> None
      \/ Tree.lookup (PathLib.join ROOT [e]) (tree (snd first)) = None ->
      fst second = fst first).
Proof.
  cbv zeta.
  assert (forall n, snd (reconcileAgain ROOT e n w) = snd (reconcile ROOT e w)) as S1.
  { induction n as [|n IH]; [reflexivity|]. simpl. rewrite IH.
    apply reconcile_settled. }
  split; [apply reconcile_settled|]. split; [exact S1|]. split.
  - intros n. simpl. now rewrite S1.
  - destruct (Tree.lookup (flagPath ROOT e) (tree w)) as [n|] eqn:F.
    + rewrite (reconcile_flagged ROOT e w) by congruence. simpl.
      set (w1 := removeFrom w (PathLib.join ROOT [e])).
      intros [H|[H|H]]; [discriminate| |].
      * now rewrite (reconcile_flagged ROOT e w1 H).
      * rewrite (reconcile_unflagged ROOT e w1) by now apply flag_of_missing_root.
        simpl. now rewrite scan_of_missing_root.
    + intros _. rewrite (reconcile_unflagged ROOT e w F). simpl.
      now rewrite (reconcile_unflagged ROOT e w F).
Qed.

(** Two calls that overlap, the second made before the removal of the first
    has run, return the same value and leave the same disk as the first
    alone. *)
Lemma updateEntry_twice_before_the_removal (ROOT : Path) (e : string) (w : World) :
  let first := updateEntry ROOT e (quiet w) in
  let second := updateEntry ROOT e (snd first) in
  fst second = fst first /\ settle (snd second) = settle (snd first).
Proof.
  cbv zeta.
  destruct (Tree.lookup (flagPath ROOT e) (tree w)) as [n|] eqn:F.
  - rewrite (updateEntry_flagged ROOT e (quiet w)) by (simpl; congruence).
    simpl. rewrite updateEntry_flagged by (simpl; congruence).
    unfold settle. simpl. split; [reflexivity|apply removeFrom_idempotent].
  - destruct (updateEntry_unflagged ROOT e (quiet w) F) as (reads & _ & ->).
    simpl.
    match goal with
    | |- context [updateEntry ROOT e ?s1] =>
        destruct (updateEntry_unflagged ROOT e s1 F) as (reads' & _ & ->)
    end.
    simpl. split; reflexivity.
Qed.


(** * More of what the code does *)

(** ** Paths joined in one call and in two *)

Lemma normalizeSegments_app (a b stack : list string) :
  PathLib.normalizeSegments stack (a ++ b)
  = PathLib.normalizeSegments (rev (PathLib.normalizeSegments stack a)) b.
Proof.
  revert stack. induction a as [|s a IH]; intros stack; simpl.
  - now rewrite rev_involutive.
  - destruct ((s =? "") || (s =? "."))%string; [apply IH|].
    destruct (s =? "..")%string; apply IH.
Qed.

Lemma normalizeSegments_of_names (p : Path) :
  forallb isName p = true -> PathLib.normalizeSegments [] p = p.
Proof.
  intros H. rewrite normalizeSegments_no_parent by now apply isName_not_parent.
  now rewrite filter_names.
Qed.

Lemma join_join (base : Path) (args1 args2 : list string) :
  PathLib.join (PathLib.join base args1) args2
  = PathLib.join base (args1 ++ args2).
Proof.
  pose proof (normalizeSegments_of_names _ (join_names base args1)) as N.
  unfold PathLib.join in *.
  set (J := PathLib.normalizeSegments [] (base ++ flat_map (Str.split "/") args1)) in *.
  rewrite flat_map_app, app_assoc.
  rewrite (normalizeSegments_app (base ++ flat_map (Str.split "/") args1)).
  fold J. now rewrite (normalizeSegments_app J), N.
Qed.

Lemma flagPath_joined (ROOT : Path) (e : string) :
  flagPath ROOT e = PathLib.join ROOT [e; UNINSTALL_FLAG].
Proof. unfold flagPath. now rewrite join_join. Qed.

Lemma flagPath_below_root (ROOT : Path) (e : string) :
  flagPath ROOT e = PathLib.join ROOT [e] ++ [UNINSTALL_FLAG].
Proof. unfold flagPath. apply join_flag, join_names. Qed.

(** ** Writing the removal flag *)

Lemma assoc_replaceEntry (s : string) (n old : Node) (l : list (string * Node)) :
  assoc s l = Some old -> assoc s (Tree.replaceEntry s n l) = Some n.
Proof.
  induction l as [|[name child] l IH]; simpl; [discriminate|].
  destruct (name =? s)%string eqn:E; simpl; rewrite E; auto.
Qed.

Lemma assoc_app_new (s : string) (n : Node) (l : list (string * Node)) :
  assoc s l = None -> assoc s (l ++ [(s, n)]) = Some n.
Proof.
  induction l as [|[name child] l IH]; simpl.
  - now rewrite String.eqb_refl.
  - destruct (name =? s)%string; [discriminate|exact IH].
Qed.

Lemma writeFile_below (s s2 : string) (p : Path) (c : Content)
    (es : list (string * Node)) :
  Tree.writeFile (s :: s2 :: p) c (Dir es)
  = match assoc s es with
    | Some child =>
        match Tree.writeFile (s2 :: p) c child with
        | Some child' => Some (Dir (Tree.replaceEntry s child' es))
        | None => None
        end
    | None => None
    end.
Proof. reflexivity. Qed.

Lemma lookup_cons (s : string) (p : Path) (es : list (string * Node)) :
  Tree.lookup (s :: p) (Dir es)
  = match assoc s es with
    | Some child => Tree.lookup p child
    | None => None
    end.
Proof. reflexivity. Qed.

Lemma lookup_writeFile (p : Path) (c : Content) :
  forall t t', Tree.writeFile p c t = Some t' ->
               Tree.lookup p t' = Some (File c).
Proof.
  induction p as [|s p IH]; intros t t' H; [discriminate|].
  destruct t as [x|es]; [destruct p; discriminate|].
  destruct p as [|s2 p].
  - simpl in H. destruct (assoc s es) as [[x|d]|] eqn:A; inversion H; subst;
      rewrite lookup_cons.
    + now rewrite (assoc_replaceEntry s _ _ es A).
    + now rewrite (assoc_app_new s _ es A).
  - rewrite writeFile_below in H.
    destruct (assoc s es) as [child|] eqn:A; [|discriminate].
    destruct (Tree.writeFile (s2 :: p) c child) as [child'|] eqn:W; [|discriminate].
    inversion H; subst. rewrite lookup_cons.
    rewrite (assoc_replaceEntry s _ _ es A). eapply IH; eassumption.
Qed.

Lemma writeFile_succeeds (q : Path) (s : string) (c : Content) :
  forall t es,
    Tree.lookup q t = Some (Dir es) ->
    (forall d, assoc s es <> Some (Dir d)) ->
    exists t', Tree.writeFile (q ++ [s]) c t = Some t'.
Proof.
  induction q as [|x q IH]; intros t es L F.
  - simpl in L. inversion L; subst. simpl.
    destruct (assoc s es) as [[y|d]|] eqn:A; eauto. destruct (F d eq_refl).
  - destruct t as [y|es0]; [discriminate L|]. rewrite lookup_cons in L.
    destruct (assoc x es0) as [child|] eqn:A; [|discriminate L].
    destruct (IH child es L F) as (child' & W).
    change ((x :: q) ++ [s]) with (x :: (q ++ [s])).
    destruct (q ++ [s]) as [|x2 rest] eqn:Q; [destruct q; discriminate Q|].
    rewrite writeFile_below, A, W. eauto.
Qed.

Lemma writeFile_needs (q : Path) (s : string) (c : Content) :
  forall t t',
    Tree.writeFile (q ++ [s]) c t = Some t' ->
    exists es, Tree.lookup q t = Some (Dir es)
               /\ forall d, assoc s es <> Some (Dir d).
Proof.
  induction q as [|x q IH]; intros t t' W.
  - simpl in W. destruct t as [y|es]; [discriminate|].
    exists es. split; [reflexivity|]. intros d A. now rewrite A in W.
  - change ((x :: q) ++ [s]) with (x :: (q ++ [s])) in W.
    destruct t as [y|es0]; [destruct (q ++ [s]); discriminate W|].
    destruct (q ++ [s]) as [|x2 rest] eqn:Q; [destruct q; discriminate Q|].
    rewrite writeFile_below in W. rewrite lookup_cons.
    destruct (assoc x es0) as [child|] eqn:A; [|discriminate W].
    destruct (Tree.writeFile (x2 :: rest) c child) as [child'|] eqn:W';
      [|discriminate W].
    now apply (IH child child').
Qed.

Lemma canFlag_writeFile (t : Node) (rootPath : Path) :
  canFlag t rootPath = true <->
  exists t', Tree.writeFile (rootPath ++ [UNINSTALL_FLAG])
               (Text UNINSTALL_FLAG) t = Some t'.
Proof.
  unfold canFlag. split.
  - destruct (Tree.lookup rootPath t) as [[x|es]|] eqn:L; try discriminate.
    intros H. apply (writeFile_succeeds rootPath _ _ t es L).
    intros d A. now rewrite A in H.
  - intros [t' W]. apply writeFile_needs in W as (es & -> & F).
    destruct (assoc UNINSTALL_FLAG es) as [[x|d]|] eqn:A; auto.
    destruct (F d eq_refl).
Qed.

Lemma setForRemoval_path (ROOT : Path) (e : string) :
  PathLib.join ROOT [e; UNINSTALL_FLAG] = PathLib.join ROOT [e] ++ [UNINSTALL_FLAG].
Proof. now rewrite <- flagPath_joined, flagPath_below_root. Qed.

(** X1. Where the extension's root is a directory (and no directory holds
    the flag's name), [setForRemoval] returns, the flag it wrote is the one
    [isSetForRemoval] and [updateEntry] look for, whatever the extension id,
    and the next [updateEntry] returns [undefined] and starts the removal of
    the root, which is gone once the removals have run when nothing stops
    them. *)
Theorem setForRemoval_then_updateEntry (ROOT : Path) (e : string) (s : State) :
  canFlag (tree (world s)) (PathLib.join ROOT [e]) = true ->
  let rootPath := PathLib.join ROOT [e] in
  let flagged := snd (setForRemoval ROOT e s) in
  let updated := updateEntry ROOT e flagged in
  fst (setForRemoval ROOT e s) = Ok tt
  /\ locked (world flagged) = locked (world s)
  /\ fst (isSetForRemoval rootPath flagged) = Ok true
  /\ fst updated = Ok None
  /\ pending (snd updated) = pending s ++ [rootPath]
  /\ (pending s = [] -> removable (world s) rootPath = true ->
      Tree.lookup rootPath (tree (settle (snd updated))) = None).
Proof.
  intros C rootPath flagged updated. subst flagged updated.
  apply canFlag_writeFile in C as (t' & W). fold rootPath in W.
  unfold setForRemoval, Fs.writeFileSync.
  rewrite setForRemoval_path. fold rootPath. rewrite W. simpl.
  pose proof (lookup_writeFile _ _ _ _ W) as L.
  split; [reflexivity|]. split; [reflexivity|].
  assert (forall st, tree (world st) = t' ->
                     Tree.lookup (flagPath ROOT e) (tree (world st)) <> None) as F.
  { intros st ->. rewrite flagPath_below_root. fold rootPath. congruence. }
  split.
  - unfold isSetForRemoval, Fs.existsSync. simpl.
    rewrite join_flag by apply join_names. now rewrite L.
  - rewrite updateEntry_flagged by (apply F; reflexivity). simpl.
    repeat split. intros P R. rewrite P. unfold settle. simpl.
    unfold removable in R. fold rootPath.
    destruct rootPath as [|x p] eqn:E; [discriminate|].
    apply remove_gone; [discriminate|exact R].
Qed.

(** X1 at the single version of [ext5]. *)
Lemma setForRemoval_then_updateEntry_witness :
  let s := quiet (Example.disk [("ext5", Example.ext5)] []) in
  let rootPath := PathLib.join Example.installRoot ["ext5"] in
  let flagged := snd (setForRemoval Example.installRoot "ext5" s) in
  let updated := updateEntry Example.installRoot "ext5" flagged in
  fst (setForRemoval Example.installRoot "ext5" s) = Ok tt
  /\ locked (world flagged) = locked (world s)
  /\ fst (isSetForRemoval rootPath flagged) = Ok true
  /\ fst updated = Ok None
  /\ pending (snd updated) = pending s ++ [rootPath]
  /\ (pending s = [] -> removable (world s) rootPath = true ->
      Tree.lookup rootPath (tree (settle (snd updated))) = None).
Proof.
  apply (setForRemoval_then_updateEntry Example.installRoot "ext5"
           (quiet (Example.disk [("ext5", Example.ext5)] []))).
  vm_compute. reflexivity.
Defined.

(** X2. Where the extension's root is no directory (or a directory holds the
    flag's name), [setForRemoval] throws and leaves the disk and the
    removals in flight as they were; it creates no directory. *)
Theorem setForRemoval_throws_without_root (ROOT : Path) (e : string) (s : State) :
  canFlag (tree (world s)) (PathLib.join ROOT [e]) = false ->
  (exists err, fst (setForRemoval ROOT e s) = Throw err)
  /\ world (snd (setForRemoval ROOT e s)) = world s
  /\ pending (snd (setForRemoval ROOT e s)) = pending s.
Proof.
  intros C. unfold setForRemoval, Fs.writeFileSync.
  rewrite setForRemoval_path.
  destruct (Tree.writeFile _ _ (tree (world s))) as [t'|] eqn:W.
  - assert (canFlag (tree (world s)) (PathLib.join ROOT [e]) = true) as C'
      by (apply canFlag_writeFile; eauto).
    congruence.
  - simpl. eauto.
Qed.

(** X2 at an extension that is not installed. *)
Lemma setForRemoval_throws_without_root_witness :
  let s := quiet (Example.disk [("ext5", Example.ext5)] []) in
  (exists err, fst (setForRemoval Example.installRoot "missing" s) = Throw err)
  /\ world (snd (setForRemoval Example.installRoot "missing" s)) = world s
  /\ pending (snd (setForRemoval Example.installRoot "missing" s)) = pending s.
Proof.
  apply (setForRemoval_throws_without_root Example.installRoot "missing"
           (quiet (Example.disk [("ext5", Example.ext5)] []))).
  vm_compute. reflexivity.
Defined.

(** ** Strings cut and joined *)

Lemma append_assoc (a b c : string) : ((a ++ b) ++ c = a ++ (b ++ c))%string.
Proof. induction a as [|x a IH]; simpl; [reflexivity|now rewrite IH]. Qed.

Lemma length_append (a b : string) :
  String.length (a ++ b)%string = String.length a + String.length b.
Proof. induction a as [|x a IH]; simpl; [reflexivity|now rewrite IH]. Qed.

Lemma all_app (p : ascii -> bool) (a b : string) :
  Str.all p (a ++ b)%string = Str.all p a && Str.all p b.
Proof.
  induction a as [|x a IH]; simpl; [reflexivity|].
  now rewrite IH, andb_assoc.
Qed.

Lemma all_impl (p q : ascii -> bool) (s : string) :
  (forall c, p c = true -> q c = true) ->
  Str.all p s = true -> Str.all q s = true.
Proof.
  intros H. induction s as [|x s IH]; simpl; [reflexivity|].
  intros E. apply andb_true_iff in E as [E1 E2].
  now rewrite (H x E1), IH.
Qed.

Lemma any_not_all (p q : ascii -> bool) (s : string) :
  (forall c, q c = true -> p c = false) ->
  Str.any q s = true -> Str.all p s = false.
Proof.
  intros H. induction s as [|x s IH]; simpl; [discriminate|].
  intros E. apply orb_true_iff in E as [E|E].
  - now rewrite (H x E).
  - rewrite (IH E). apply andb_false_r.
Qed.

Lemma split_nonempty (sep : ascii) (s : string) : Str.split sep s <> [].
Proof.
  destruct s as [|c s]; simpl; [discriminate|].
  destruct (Ascii.eqb c sep); [discriminate|].
  destruct (Str.split sep s); discriminate.
Qed.

Lemma join_split (sep : ascii) (s : string) :
  Str.join (String sep "") (Str.split sep s) = s.
Proof.
  induction s as [|c s IH]; simpl; [reflexivity|].
  destruct (Ascii.eqb_spec c sep) as [->|N].
  - pose proof (split_nonempty sep s) as NE.
    destruct (Str.split sep s) as [|w ws]; [congruence|].
    simpl in *. now rewrite IH.
  - pose proof (split_nonempty sep s) as NE.
    destruct (Str.split sep s) as [|w ws]; [congruence|].
    destruct ws as [|w2 ws]; simpl in *; now rewrite <- IH.
Qed.

Lemma split_lacks (sep : ascii) (x : string) :
  lacks sep x = true -> Str.split sep x = [x].
Proof.
  unfold lacks. induction x as [|c x IH]; simpl; [reflexivity|].
  intros E. apply andb_true_iff in E as [E1 E2].
  destruct (Ascii.eqb c sep); [discriminate|]. now rewrite IH.
Qed.

Lemma split_app (sep : ascii) (x rest : string) :
  lacks sep x = true ->
  Str.split sep (x ++ String sep rest)%string = x :: Str.split sep rest.
Proof.
  unfold lacks. induction x as [|c x IH]; simpl.
  - now rewrite Ascii.eqb_refl.
  - intros E. apply andb_true_iff in E as [E1 E2].
    destruct (Ascii.eqb c sep); [discriminate|]. now rewrite IH.
Qed.

Lemma split_join (sep : ascii) (ids : list string) :
  ids <> [] -> forallb (lacks sep) ids = true ->
  Str.split sep (Str.join (String sep "") ids) = ids.
Proof.
  induction ids as [|x ids IH]; [congruence|]. intros _ E.
  simpl in E. apply andb_true_iff in E as [E1 E2].
  destruct ids as [|y ids].
  - simpl. now apply split_lacks.
  - change (Str.join (String sep "") (x :: y :: ids))
      with (x ++ String sep (Str.join (String sep "") (y :: ids)))%string.
    rewrite split_app by exact E1. rewrite IH; [reflexivity|discriminate|exact E2].
Qed.

Lemma cut_lacks (sep : ascii) (x : string) :
  lacks sep x = true -> Str.cut sep x = (x, None).
Proof.
  unfold lacks. induction x as [|c x IH]; simpl; [reflexivity|].
  intros E. apply andb_true_iff in E as [E1 E2].
  destruct (Ascii.eqb c sep); [discriminate|]. now rewrite IH.
Qed.

Lemma cut_app (sep : ascii) (x rest : string) :
  lacks sep x = true ->
  Str.cut sep (x ++ String sep rest)%string = (x, Some rest).
Proof.
  unfold lacks. induction x as [|c x IH]; simpl.
  - now rewrite Ascii.eqb_refl.
  - intros E. apply andb_true_iff in E as [E1 E2].
    destruct (Ascii.eqb c sep); [discriminate|]. now rewrite IH.
Qed.

Lemma cut_inv (sep : ascii) (s : string) :
  forall a ob,
    Str.cut sep s = (a, ob) ->
    s = (a ++ match ob with
              | Some b => String sep b
              | None => ""
              end)%string.
Proof.
  induction s as [|c s IH]; simpl; intros a ob E.
  - now inversion E.
  - destruct (Ascii.eqb_spec c sep) as [->|N].
    + now inversion E.
    + destruct (Str.cut sep s) as [a' b']. inversion E; subst.
      simpl. now rewrite <- (IH a' ob eq_refl).
Qed.

Lemma lacks_join (sep dot : ascii) (ids : list string) :
  Ascii.eqb dot sep = false ->
  forallb (lacks sep) ids = true ->
  lacks sep (Str.join (String dot "") ids) = true.
Proof.
  intros N. induction ids as [|x ids IH]; [reflexivity|]. intros E.
  simpl in E. apply andb_true_iff in E as [E1 E2].
  destruct ids as [|y ids]; [exact E1|].
  change (Str.join (String dot "") (x :: y :: ids))
    with (x ++ String dot (Str.join (String dot "") (y :: ids)))%string.
  unfold lacks in *. rewrite all_app, E1. simpl. rewrite N. simpl.
  now apply IH.
Qed.

(** ** Numbers printed and read back *)

Ltac each_char c :=
  destruct c as [[] [] [] [] [] [] [] []].

Lemma isDigit_identifier (c : ascii) :
  Semver.isDigit c = true ->
  Semver.isIdentifierChar c = true
  /\ (Semver.isLetter c || Semver.isHyphen c) = false
  /\ Ascii.eqb c "-" = false.
Proof. each_char c; vm_compute; intros H; try discriminate H; auto. Qed.

Lemma isIdentifierChar_plain (c : ascii) :
  Semver.isIdentifierChar c = true ->
  Ascii.eqb c "." = false /\ Ascii.eqb c "+" = false.
Proof. each_char c; vm_compute; intros H; try discriminate H; auto. Qed.

Lemma isDigit_uint (c : ascii) (d : Decimal.uint) :
  Semver.isDigit c = true -> exists d', uint_of_char c (Some d) = Some d'.
Proof.
  each_char c; intros H; try (vm_compute in H; discriminate H);
    eexists; reflexivity.
Qed.

Lemma body_of_digit (c : ascii) (r : string) :
  Semver.isDigit c = true ->
  match String c r with
  | String "v" rest => rest
  | _ => String c r
  end = String c r.
Proof.
  each_char c; intros H; try (vm_compute in H; discriminate H); reflexivity.
Qed.

Lemma digits_uint (s : string) :
  Str.all Semver.isDigit s = true ->
  exists d, NilEmpty.uint_of_string s = Some d.
Proof.
  induction s as [|c s IH]; simpl; [eauto|].
  intros E. apply andb_true_iff in E as [E1 E2].
  destruct (IH E2) as [d ->]. now apply isDigit_uint.
Qed.

Lemma uint_digits (d : Decimal.uint) :
  Str.all Semver.isDigit (NilEmpty.string_of_uint d) = true.
Proof. induction d; simpl; auto. Qed.

Lemma digitsValue_acc (d : Decimal.uint) :
  forall p, Semver.digitsValue (N.pos p) (NilEmpty.string_of_uint d)
            = N.pos (Pos.of_uint_acc d p).
Proof.
  induction d; intros p; cbn [NilEmpty.string_of_uint Semver.digitsValue Pos.of_uint_acc];
    [reflexivity|..];
    rewrite <- IHd; f_equal;
    match goal with
    | |- context [N_of_ascii ?c] =>
        let v := eval vm_compute in (N_of_ascii c - 48)%N in
        change (N_of_ascii c - 48)%N with v
    end; lia.
Qed.

Lemma digitsValue_uint (d : Decimal.uint) :
  Semver.digitsValue 0 (NilEmpty.string_of_uint d) = N.of_uint d.
Proof.
  unfold N.of_uint.
  induction d; cbn [NilEmpty.string_of_uint Semver.digitsValue Pos.of_uint];
    [reflexivity|exact IHd|..]; apply digitsValue_acc.
Qed.

Lemma digitsValue_showNumber (n : N) :
  Semver.digitsValue 0 (Semver.showNumber n) = n.
Proof.
  unfold Semver.showNumber.
  rewrite <- (DecimalN.Unsigned.of_to n) at 2.
  destruct (N.to_uint n) eqn:E; try apply digitsValue_uint. reflexivity.
Qed.

Lemma numericIdentifier_showNumber (n : N) :
  Semver.numericIdentifier (Semver.showNumber n) = true.
Proof.
  unfold Semver.showNumber.
  rewrite <- (DecimalN.Unsigned.of_to n), DecimalN.Unsigned.to_of.
  set (d := N.to_uint n). unfold Decimal.unorm.
  pose proof (DecimalFacts.nzhead_nonzero d) as NZ.
  destruct (Decimal.nzhead d) as [|u|u|u|u|u|u|u|u|u|u]; try reflexivity;
    try (exfalso; apply (NZ u); reflexivity);
    cbn [NilZero.string_of_uint NilEmpty.string_of_uint Semver.numericIdentifier];
    apply uint_digits.
Qed.

Lemma showNumber_digitsValue (a : string) :
  Semver.numericIdentifier a = true ->
  Semver.showNumber (Semver.digitsValue 0 a) = a.
Proof.
  intros H.
  assert (Str.all Semver.isDigit a = true) as D.
  { destruct a as [|c r]; [discriminate|]. simpl in *.
    destruct (Ascii.eqb_spec c "0") as [->|_].
    - apply String.eqb_eq in H. now subst.
    - exact H. }
  destruct (digits_uint a D) as [d U]. apply NilEmpty.sus in U. subst a.
  rewrite digitsValue_uint. unfold Semver.showNumber.
  rewrite DecimalN.Unsigned.to_of.
  destruct d as [|u|u|u|u|u|u|u|u|u|u]; try reflexivity; [discriminate H|].
  simpl in H. apply String.eqb_eq in H. destruct u; try discriminate H.
  reflexivity.
Qed.

Lemma showNumber_digits (n : N) :
  Str.all Semver.isDigit (Semver.showNumber n) = true.
Proof.
  pose proof (numericIdentifier_showNumber n) as H.
  destruct (Semver.showNumber n) as [|c r]; [discriminate|]. simpl in *.
  destruct (Ascii.eqb_spec c "0") as [->|_]; [|exact H].
  apply String.eqb_eq in H. now subst.
Qed.

(** ** What [semver.valid] returns is a version again *)

Lemma numericIdentifier_digits (x : string) :
  Semver.numericIdentifier x = true -> Str.all Semver.isDigit x = true.
Proof.
  destruct x as [|c r]; [discriminate|]. simpl.
  destruct (Ascii.eqb_spec c "0") as [->|_]; [|auto].
  intros H. apply String.eqb_eq in H. now subst.
Qed.

Lemma prereleaseIdentifier_chars (x : string) :
  Semver.prereleaseIdentifier x = true ->
  Str.all Semver.isIdentifierChar x = true.
Proof.
  unfold Semver.prereleaseIdentifier, Semver.nonNumericIdentifier. intros H.
  apply orb_true_iff in H as [H|H].
  - apply numericIdentifier_digits in H.
    apply (all_impl Semver.isDigit); [|exact H].
    intros c Hc. now apply isDigit_identifier.
  - now apply andb_true_iff in H as [H _].
Qed.

Lemma digits_lack (sep : ascii) (x : string) :
  Semver.isDigit sep = false ->
  Str.all Semver.isDigit x = true -> lacks sep x = true.
Proof.
  intros N. apply all_impl. intros c Hc.
  destruct (Ascii.eqb_spec c sep) as [->|_]; [congruence|reflexivity].
Qed.

Lemma identifiers_lack (sep : ascii) (ids : list string) :
  Semver.isIdentifierChar sep = false ->
  forallb Semver.prereleaseIdentifier ids = true ->
  forallb (lacks sep) ids = true.
Proof.
  intros N H. rewrite forallb_forall in H |- *. intros x Hx.
  apply (all_impl Semver.isIdentifierChar);
    [|apply prereleaseIdentifier_chars, H, Hx].
  intros c Hc. destruct (Ascii.eqb_spec c sep) as [->|_]; [congruence|reflexivity].
Qed.

Lemma parse_bounds (version : string) (v : Semver.SemVer) :
  Semver.parse version = Some v ->
  String.length (Semver.format v) <= String.length version
  /\ String.length version <= Semver.MAX_LENGTH
  /\ forallb Semver.prereleaseIdentifier (Semver.prerelease v) = true
  /\ (Semver.major v <=? Semver.MAX_SAFE_INTEGER)%N = true
  /\ (Semver.minor v <=? Semver.MAX_SAFE_INTEGER)%N = true
  /\ (Semver.patch v <=? Semver.MAX_SAFE_INTEGER)%N = true.
Proof.
  unfold Semver.parse.
  destruct (Nat.ltb Semver.MAX_LENGTH (String.length version)) eqn:L;
    [discriminate|].
  apply Nat.ltb_ge in L.
  set (body := match version with
               | String "v" rest => rest
               | _ => version
               end).
  assert (String.length body <= String.length version) as LB.
  { subst body. destruct version as [|c r]; [auto|].
    each_char c; simpl; lia. }
  clearbody body.
  destruct (Str.cut "+" body) as [front buildText] eqn:C1.
  destruct (Str.cut "-" front) as [main preText] eqn:C2.
  destruct (Str.split "." main) as [|a [|b [|c [|x l]]]] eqn:S;
    try discriminate.
  match goal with
  | |- (if ?cond then _ else _) = _ -> _ => destruct cond eqn:K; [|discriminate]
  end.
  intros E. inversion E; subst v; clear E. simpl.
  repeat (apply andb_true_iff in K as [K ?]).
  repeat split; auto.
  unfold Semver.format. simpl.
  rewrite !showNumber_digitsValue by assumption.
  apply cut_inv in C1, C2.
  pose proof (join_split "." main) as J. rewrite S in J. simpl in J.
  assert (String.length front <= String.length body) as LF.
  { rewrite C1, length_append. lia. }
  match goal with
  | |- String.length (a ++ String "." (b ++ String "." (c ++ ?tl)))%string <= _ =>
      replace tl with (match preText with
                       | Some t => String "-" t
                       | None => ""
                       end)
  end.
  - rewrite <- J in C2. rewrite !append_assoc in C2. simpl in C2.
    rewrite !append_assoc in C2. simpl in C2. rewrite <- C2. lia.
  - destruct preText as [t|]; [|reflexivity].
    pose proof (join_split "." t) as Jt.
    pose proof (split_nonempty "." t) as Nt.
    destruct (Str.split "." t) as [|y ys]; [congruence|].
    simpl in Jt |- *. now rewrite Jt.
Qed.

Lemma body_of_version (s : string) :
  (exists c r, s = String c r /\ Semver.isDigit c = true) ->
  match s with
  | String "v" rest => rest
  | _ => s
  end = s.
Proof. intros (c & r & -> & H). now apply body_of_digit. Qed.

Lemma showNumber_head (n : N) (t : string) :
  exists c r, (Semver.showNumber n ++ t)%string = String c r
              /\ Semver.isDigit c = true.
Proof.
  pose proof (numericIdentifier_showNumber n) as H.
  apply numericIdentifier_digits in H.
  pose proof (numericIdentifier_showNumber n) as H'.
  destruct (Semver.showNumber n) as [|c r]; [discriminate|].
  simpl in H. apply andb_true_iff in H as [H _].
  exists c, (r ++ t)%string. auto.
Qed.

Lemma parse_format (v : Semver.SemVer) :
  String.length (Semver.format v) <= Semver.MAX_LENGTH ->
  forallb Semver.prereleaseIdentifier (Semver.prerelease v) = true ->
  (Semver.major v <=? Semver.MAX_SAFE_INTEGER)%N = true ->
  (Semver.minor v <=? Semver.MAX_SAFE_INTEGER)%N = true ->
  (Semver.patch v <=? Semver.MAX_SAFE_INTEGER)%N = true ->
  Semver.parse (Semver.format v)
  = Some (Semver.mkSemVer (Semver.major v) (Semver.minor v) (Semver.patch v)
            (Semver.prerelease v) []).
Proof.
  intros L P B1 B2 B3. unfold Semver.parse.
  apply Nat.ltb_ge in L. rewrite L.
  rewrite body_of_version by apply showNumber_head.
  set (sM := Semver.showNumber (Semver.major v)).
  set (sm := Semver.showNumber (Semver.minor v)).
  set (sp := Semver.showNumber (Semver.patch v)).
  set (mainText := (sM ++ String "." (sm ++ String "." sp))%string).
  assert (forall sep, Semver.isDigit sep = false -> Ascii.eqb "." sep = false ->
                      lacks sep mainText = true) as LM.
  { intros sep D N. unfold mainText, lacks. rewrite !all_app.
    cbn [Str.all]. rewrite !all_app. cbn [Str.all]. rewrite N. cbn [negb andb].
    fold (lacks sep sM) (lacks sep sm) (lacks sep sp).
    rewrite !digits_lack; auto; apply showNumber_digits. }
  assert (Str.split "." mainText = [sM; sm; sp]) as SM.
  { unfold mainText.
    rewrite !split_app, split_lacks; auto;
      apply digits_lack; auto; apply showNumber_digits. }
  assert (Semver.format v
          = (mainText ++ match Semver.prerelease v with
                         | [] => ""
                         | ids => String "-" (Str.join "." ids)
                         end)%string) as F.
  { unfold Semver.format, mainText. fold sM sm sp.
    rewrite !append_assoc. simpl. rewrite !append_assoc. reflexivity. }
  rewrite F. clear F.
  destruct (Semver.prerelease v) as [|x ids] eqn:EP.
  - assert ((mainText ++ "")%string = mainText) as ->.
    { clear. induction mainText as [|c s IH]; simpl; [reflexivity|now rewrite IH]. }
    rewrite (cut_lacks "+"), (cut_lacks "-"), SM by (apply LM; reflexivity).
    unfold sM, sm, sp.
    rewrite !numericIdentifier_showNumber, !digitsValue_showNumber, B1, B2, B3.
    reflexivity.
  - assert (lacks "+" (Str.join "." (x :: ids)) = true) as LJ.
    { apply lacks_join; [reflexivity|].
      apply identifiers_lack; [reflexivity|exact P]. }
    rewrite (cut_lacks "+").
    + rewrite (cut_app "-") by (apply LM; reflexivity). rewrite SM.
      rewrite split_join;
        [|discriminate|apply identifiers_lack; [reflexivity|exact P]].
      unfold sM, sm, sp.
      rewrite !numericIdentifier_showNumber, !digitsValue_showNumber, B1, B2, B3, P.
      reflexivity.
    + unfold lacks in *. rewrite all_app, LM by reflexivity.
      simpl. simpl in LJ. exact LJ.
Qed.

Lemma valid_canonical (version c : string) :
  Semver.valid version = Some c -> canonical c.
Proof.
  unfold Semver.valid.
  destruct (Semver.parse version) as [v|] eqn:E; [|discriminate].
  intros H. inversion H; subst c; clear H.
  destruct (parse_bounds version v E) as (L1 & L2 & P & B1 & B2 & B3).
  exists (Semver.mkSemVer (Semver.major v) (Semver.minor v) (Semver.patch v)
            (Semver.prerelease v) []).
  split; [apply parse_format; auto; lia|]. repeat split. exact P.
Qed.

(** ** The order of [semver.compare] *)

Lemma weakOrder_lex {A : Type} (D : A -> Prop) (c1 c2 : A -> A -> comparison) :
  weakOrder D c1 -> weakOrder D c2 ->
  weakOrder D (fun a b => match c1 a b with
                          | Eq => c2 a b
                          | c => c
                          end).
Proof.
  intros (S1 & E1 & T1) (S2 & E2 & T2). repeat split.
  - intros a b Da Db. rewrite (S1 a b Da Db).
    destruct (c1 a b); simpl; auto.
  - intros a b c Da Db Dc H.
    destruct (c1 a b) eqn:C; try discriminate.
    rewrite (E1 a b c Da Db Dc C). destruct (c1 b c); auto.
  - intros a b c Da Db Dc H1 H2.
    destruct (c1 a b) eqn:Cab; try discriminate.
    + rewrite (E1 a b c Da Db Dc Cab).
      destruct (c1 b c) eqn:Cbc; try discriminate; eauto.
    + destruct (c1 b c) eqn:Cbc; try discriminate.
      * assert (c1 a c = c1 a b) as ->.
        { rewrite (S1 c a Dc Da), (S1 b a Db Da).
          now rewrite (E1 b c a Db Dc Da Cbc). }
        now rewrite Cab.
      * now rewrite (T1 a b c Da Db Dc Cab Cbc).
Qed.

Lemma weakOrder_map {A B : Type} (f : A -> B) (D : A -> Prop) (D' : B -> Prop)
    (cmp : B -> B -> comparison) :
  (forall a, D a -> D' (f a)) ->
  weakOrder D' cmp -> weakOrder D (fun a b => cmp (f a) (f b)).
Proof.
  intros H (S1 & E1 & T1). repeat split; intros; eauto.
Qed.

Lemma weakOrder_numbers : weakOrder (fun _ : N => True) N.compare.
Proof.
  repeat split.
  - intros a b _ _. apply N.compare_antisym.
  - intros a b c _ _ _ H. apply N.compare_eq in H. now subst.
  - intros a b c _ _ _ H1 H2. rewrite N.compare_lt_iff in *. lia.
Qed.

Lemma weakOrder_not_greater {A : Type} (D : A -> Prop)
    (cmp : A -> A -> comparison) :
  weakOrder D cmp ->
  (forall a b, D a -> D b -> cmp a b = Gt -> cmp b a <> Gt)
  /\ (forall a b c, D a -> D b -> D c ->
                    cmp a b <> Gt -> cmp b c <> Gt -> cmp a c <> Gt).
Proof.
  intros (S1 & E1 & T1). split.
  - intros a b Da Db H. rewrite (S1 a b Da Db), H. discriminate.
  - intros a b c Da Db Dc H1 H2 H3.
    assert (cmp c a = Lt) as Hca by (rewrite (S1 a c Da Dc), H3; reflexivity).
    destruct (cmp a b) eqn:Cab; [| |congruence].
    + rewrite (E1 a b c Da Db Dc Cab) in H3. congruence.
    + pose proof (T1 c a b Dc Da Db Hca Cab) as Hcb.
      rewrite (S1 c b Dc Db), Hcb in H2. now apply H2.
Qed.

Lemma string_compare_refl (s : string) : String.compare s s = Eq.
Proof.
  pose proof (String.compare_antisym s s) as H.
  destruct (String.compare s s); auto; discriminate.
Qed.

Lemma string_compare_trans (a : string) :
  forall b c, String.compare a b = Lt -> String.compare b c = Lt ->
              String.compare a c = Lt.
Proof.
  induction a as [|x a IH]; intros [|y b] [|z c]; simpl; try congruence.
  unfold Ascii.compare.
  destruct (N.compare_spec (N_of_ascii x) (N_of_ascii y)) as [E1|L1|G1];
    destruct (N.compare_spec (N_of_ascii y) (N_of_ascii z)) as [E2|L2|G2];
    destruct (N.compare_spec (N_of_ascii x) (N_of_ascii z)) as [E3|L3|G3];
    try congruence; try lia; eauto.
Qed.

Lemma numeric_prerelease (x : string) :
  Semver.prereleaseIdentifier x = true ->
  negb (x =? "") && Str.all Semver.isDigit x = Semver.numericIdentifier x.
Proof.
  unfold Semver.prereleaseIdentifier, Semver.nonNumericIdentifier. intros H.
  destruct (Semver.numericIdentifier x) eqn:E.
  - rewrite (numericIdentifier_digits x E). destruct x; [discriminate|reflexivity].
  - simpl in H. apply andb_true_iff in H as [_ H].
    rewrite (any_not_all Semver.isDigit
               (fun c => Semver.isLetter c || Semver.isHyphen c) x);
      [apply andb_false_r| |exact H].
    intros c Hc. destruct (Semver.isDigit c) eqn:Dc; [|reflexivity].
    apply isDigit_identifier in Dc as (_ & Dc & _). congruence.
Qed.

Lemma compareIdentifiers_eq (x y : string) :
  Semver.prereleaseIdentifier x = true ->
  Semver.prereleaseIdentifier y = true ->
  Semver.compareIdentifiers x y = Eq -> x = y.
Proof.
  intros Dx Dy. unfold Semver.compareIdentifiers, Semver.compareNumbers.
  rewrite (numeric_prerelease x Dx), (numeric_prerelease y Dy).
  destruct (Semver.numericIdentifier x) eqn:Nx,
    (Semver.numericIdentifier y) eqn:Ny; simpl; try discriminate.
  - intros H. apply N.compare_eq in H.
    rewrite <- (showNumber_digitsValue x Nx), <- (showNumber_digitsValue y Ny).
    now rewrite H.
  - apply String.compare_eq_iff.
Qed.

Lemma weakOrder_identifiers :
  weakOrder (fun x => Semver.prereleaseIdentifier x = true)
    Semver.compareIdentifiers.
Proof.
  repeat split.
  - intros a b _ _. unfold Semver.compareIdentifiers, Semver.compareNumbers.
    destruct (negb (a =? "") && Str.all Semver.isDigit a),
      (negb (b =? "") && Str.all Semver.isDigit b); simpl; auto.
    + apply N.compare_antisym.
    + apply String.compare_antisym.
  - intros a b c Da Db Dc H.
    now rewrite (compareIdentifiers_eq a b Da Db H).
  - intros a b c _ _ _. unfold Semver.compareIdentifiers, Semver.compareNumbers.
    destruct (negb (a =? "") && Str.all Semver.isDigit a),
      (negb (b =? "") && Str.all Semver.isDigit b),
      (negb (c =? "") && Str.all Semver.isDigit c); simpl; try congruence.
    + rewrite !N.compare_lt_iff. lia.
    + apply string_compare_trans.
Qed.

Lemma compareIdentifiers_refl (x : string) : Semver.compareIdentifiers x x = Eq.
Proof.
  unfold Semver.compareIdentifiers, Semver.compareNumbers.
  destruct (negb (x =? "") && Str.all Semver.isDigit x); simpl.
  - apply N.compare_refl.
  - apply string_compare_refl.
Qed.

Lemma compareIdentifierLists_eq (a : list string) :
  forall b,
    forallb Semver.prereleaseIdentifier a = true ->
    forallb Semver.prereleaseIdentifier b = true ->
    Semver.compareIdentifierLists a b = Eq -> a = b.
Proof.
  induction a as [|x a IH]; intros [|y b]; simpl; try congruence.
  intros Da Db. apply andb_true_iff in Da as [Dx Da], Db as [Dy Db].
  destruct (String.eqb_spec x y) as [->|N].
  - intros H. now rewrite (IH b Da Db H).
  - intros H. destruct (N (compareIdentifiers_eq x y Dx Dy H)).
Qed.

Lemma weakOrder_identifierLists :
  weakOrder (fun l => forallb Semver.prereleaseIdentifier l = true)
    Semver.compareIdentifierLists.
Proof.
  destruct weakOrder_identifiers as (S1 & E1 & T1). repeat split.
  - induction a as [|x a IH]; intros [|y b]; simpl; auto.
    intros Da Db. apply andb_true_iff in Da as [Dx Da], Db as [Dy Db].
    rewrite (String.eqb_sym y x). destruct (x =? y); auto.
  - intros a b c Da Db Dc H.
    now rewrite (compareIdentifierLists_eq a b Da Db H).
  - induction a as [|x a IH]; intros [|y b] [|z c]; simpl; try congruence.
    intros Da Db Dc.
    apply andb_true_iff in Da as [Dx Da], Db as [Dy Db], Dc as [Dz Dc].
    destruct (String.eqb_spec x y) as [->|Nxy].
    + destruct (y =? z); [apply IH|]; auto.
    + destruct (String.eqb_spec y z) as [->|Nyz].
      * apply String.eqb_neq in Nxy. rewrite Nxy. auto.
      * intros H1 H2. pose proof (T1 x y z Dx Dy Dz H1 H2) as H3.
        destruct (String.eqb_spec x z) as [->|Nxz]; [|exact H3].
        rewrite compareIdentifiers_refl in H3. discriminate.
Qed.

Lemma comparePre_eq (a b : Semver.SemVer) :
  forallb Semver.prereleaseIdentifier (Semver.prerelease a) = true ->
  forallb Semver.prereleaseIdentifier (Semver.prerelease b) = true ->
  Semver.comparePre a b = Eq -> Semver.prerelease a = Semver.prerelease b.
Proof.
  unfold Semver.comparePre. intros Da Db.
  destruct (Semver.prerelease a) as [|x pa], (Semver.prerelease b) as [|y pb];
    try discriminate; [reflexivity|].
  now apply compareIdentifierLists_eq.
Qed.

Lemma weakOrder_comparePre :
  weakOrder
    (fun v => forallb Semver.prereleaseIdentifier (Semver.prerelease v) = true)
    Semver.comparePre.
Proof.
  destruct weakOrder_identifierLists as (S1 & E1 & T1). repeat split.
  - intros a b Da Db. unfold Semver.comparePre.
    destruct (Semver.prerelease a) as [|x pa], (Semver.prerelease b) as [|y pb];
      auto.
  - intros a b c Da Db Dc H. unfold Semver.comparePre.
    now rewrite (comparePre_eq a b Da Db H).
  - intros a b c Da Db Dc. unfold Semver.comparePre.
    destruct (Semver.prerelease a) as [|x pa], (Semver.prerelease b) as [|y pb],
      (Semver.prerelease c) as [|z pc]; try congruence.
    apply T1; auto.
Qed.

Lemma weakOrder_compare :
  weakOrder
    (fun v => forallb Semver.prereleaseIdentifier (Semver.prerelease v) = true)
    Semver.compare.
Proof.
  apply (weakOrder_lex _ Semver.compareMain Semver.comparePre);
    [|exact weakOrder_comparePre].
  apply (weakOrder_lex _
           (fun a b => N.compare (Semver.major a) (Semver.major b))
           (fun a b =>
              match N.compare (Semver.minor a) (Semver.minor b) with
              | Eq => N.compare (Semver.patch a) (Semver.patch b)
              | c => c
              end)).
  - apply (weakOrder_map Semver.major _ (fun _ => True)); auto.
    exact weakOrder_numbers.
  - apply (weakOrder_lex _
             (fun a b => N.compare (Semver.minor a) (Semver.minor b))
             (fun a b => N.compare (Semver.patch a) (Semver.patch b))).
    + apply (weakOrder_map Semver.minor _ (fun _ => True)); auto.
      exact weakOrder_numbers.
    + apply (weakOrder_map Semver.patch _ (fun _ => True)); auto.
      exact weakOrder_numbers.
Qed.

(** ** The versions the scan returns *)

Lemma gt_canonical (a b : string) :
  canonical a -> canonical b ->
  exists va vb,
    Semver.parse a = Some va /\ Semver.parse b = Some vb
    /\ forallb Semver.prereleaseIdentifier (Semver.prerelease va) = true
    /\ forallb Semver.prereleaseIdentifier (Semver.prerelease vb) = true
    /\ Semver.gt a b = Ok match Semver.compare va vb with
                          | Gt => true
                          | _ => false
                          end.
Proof.
  intros (va & Pa & _ & _ & Da) (vb & Pb & _ & _ & Db).
  exists va, vb. unfold Semver.gt. rewrite Pa, Pb. auto.
Qed.

Lemma canonical_orders (versions : list VersionInfo) :
  (forall a, In a versions -> canonical (version a)) ->
  ordersVersions versions.
Proof.
  intros C.
  destruct (weakOrder_not_greater _ _ weakOrder_compare) as [Asym Trans].
  repeat split.
  - intros a b Ha Hb.
    destruct (gt_canonical _ _ (C a Ha) (C b Hb)) as (va & vb & _ & _ & _ & _ & ->).
    eauto.
  - intros a b Ha Hb. unfold newer.
    destruct (gt_canonical _ _ (C a Ha) (C b Hb))
      as (va & vb & Pa & Pb & Da & Db & ->).
    unfold Semver.gt. rewrite Pa, Pb.
    destruct (Semver.compare va vb) eqn:E; try discriminate. intros _.
    pose proof (Asym va vb Da Db E). destruct (Semver.compare vb va); congruence.
  - intros a b c Ha Hb Hc. unfold newer.
    destruct (gt_canonical _ _ (C a Ha) (C b Hb))
      as (va & vb & Pa & Pb & Da & Db & ->).
    destruct (C c Hc) as (vc & Pc & _ & _ & Dc).
    unfold Semver.gt. rewrite Pa, Pb, Pc.
    pose proof (Trans va vb vc Da Db Dc) as T.
    destruct (Semver.compare va vb), (Semver.compare vb vc),
      (Semver.compare va vc); try discriminate; auto;
      intros _ _; exfalso; apply T; congruence.
Qed.

Lemma versionInfoOf_canonical (e name : string) (info : VersionInfo) :
  versionInfoOf e name = Some info -> canonical (version info).
Proof.
  unfold versionInfoOf.
  destruct (Semver.valid (hd "" (Str.split "_" name))) as [c|] eqn:V;
    [|discriminate].
  intros H. inversion H; subst. simpl. exact (valid_canonical _ _ V).
Qed.

Lemma scan_canonical (ROOT : Path) (e : string) (t : Node)
    (versions : list VersionInfo) :
  resultOn (listInstalledVersions ROOT e) t = Ok versions ->
  forall info, In info versions -> canonical (version info).
Proof.
  intros H info Hin.
  apply (listInstalledVersions_candidates ROOT e t versions H) in Hin
    as (name & _ & V & _).
  exact (versionInfoOf_canonical e name info V).
Qed.

Lemma sort_scanned (versions : list VersionInfo) :
  (forall a, In a versions -> canonical (version a)) ->
  exists sorted, ArrayLib.sort newestFirst versions = Ok sorted.
Proof.
  intros C. destruct (canonical_orders versions C) as (Hgt & Hasym & Htrans).
  destruct (sort_ordered VersionInfo newestFirst newer versions)
    with (l := versions) as (sorted & E & _); eauto.
  - intros a b Ha Hb. unfold newestFirst, newer.
    destruct (Hgt a b Ha Hb) as [c ->]. now destruct c.
  - apply incl_refl.
Qed.

Lemma chosen_returns (versions : list VersionInfo) :
  (forall a, In a versions -> canonical (version a)) ->
  exists r, chosen (Ok versions) = Ok r.
Proof.
  intros C. unfold chosen. destruct (sort_scanned versions C) as [sorted ->].
  destruct (Nat.ltb 1 (List.length versions)); [eauto|].
  destruct (Nat.eqb (List.length versions) 1); eauto.
Qed.

Lemma superseded_length (versions : list VersionInfo) :
  (forall a, In a versions -> canonical (version a)) ->
  List.length (superseded (Ok versions)) = List.length versions - 1.
Proof.
  intros C. unfold superseded.
  destruct (sort_scanned versions C) as [sorted E]. rewrite E.
  destruct (Nat.ltb 1 (List.length versions)) eqn:L.
  - apply sort_Permutation, Permutation_length in E. rewrite E.
    destruct sorted; simpl; lia.
  - apply Nat.ltb_ge in L. simpl. lia.
Qed.



(** X4. With no removal flag, [updateEntry] removes nothing however many
    versions the scan returns: it calls [fs.remove] once for each version
    but one, each time with [undefined], so no removal is started, nothing
    is written and the disk is the same once all is settled. *)
Theorem updateEntry_upgrade_removes_no_version (ROOT : Path) (e : string)
    (w : World) (versions : list VersionInfo) :
  Tree.lookup (flagPath ROOT e) (tree w) = None ->
  fst (listInstalledVersions ROOT e (quiet w)) = Ok versions ->
  let s := snd (updateEntry ROOT e (quiet w)) in
  filter (fun c => negb (isRead c)) (calls s)
  = repeat (Remove None) (List.length versions - 1)
  /\ pending s = []
  /\ world s = w
  /\ settle s = w.
Proof.
  intros F V s. subst s.
  rewrite (ReadOnly_result _ (quiet w) (ReadOnly_listInstalledVersions ROOT e)) in V.
  change (tree (world (quiet w))) with (tree w) in V.
  pose proof (scan_canonical ROOT e (tree w) versions V) as C.
  destruct (updateEntry_unflagged ROOT e (quiet w) F) as (reads & Hr & ->).
  change (tree (world (quiet w))) with (tree w). rewrite V.
  rewrite <- (superseded_length versions C).
  generalize (superseded (Ok versions)) as l. intros l. simpl.
  repeat split. rewrite filter_app.
  assert (filter (fun c => negb (isRead c)) reads = []) as ->.
  { clear - Hr. induction reads as [|c reads IH]; [reflexivity|].
    simpl in *. apply andb_true_iff in Hr as [H1 H2]. rewrite H1. simpl. auto. }
  simpl. induction l as [|x l IH]; [reflexivity|].
  simpl. now rewrite IH.
Qed.

(** X4 at [ext1], where one of two versions is superseded. *)
Lemma updateEntry_upgrade_removes_no_version_witness :
  let w := Example.disk [("ext1", Example.ext1)] [] in
  let s := snd (updateEntry Example.installRoot "ext1" (quiet w)) in
  filter (fun c => negb (isRead c)) (calls s) = repeat (Remove None) (2 - 1)
  /\ pending s = []
  /\ world s = w
  /\ settle s = w.
Proof.
  apply (updateEntry_upgrade_removes_no_version Example.installRoot "ext1"
           (Example.disk [("ext1", Example.ext1)] [])
           [mkVersionInfo "ext1" "1.0.0" "r1" "1.0.0_r1";
            mkVersionInfo "ext1" "1.1.0" "r1" "1.1.0_r1"]).
  - reflexivity.
  - vm_compute. reflexivity.
Defined.

(** X5. [updateEntry] throws in one case only: no removal flag is there and
    some directory of the extension with a valid version name holds a
    manifest that is the document [null]. With the flag there it returns
    without reading any manifest, and the sort never throws. *)
Theorem updateEntry_throws_only_on_null_manifest (ROOT : Path) (e : string)
    (s : State) :
  (exists err, fst (updateEntry ROOT e s) = Throw err) <->
  Tree.lookup (flagPath ROOT e) (tree (world s)) = None
  /\ exists name info,
       In name (listing (tree (world s)) (PathLib.join ROOT [e]))
       /\ versionInfoOf e name = Some info
       /\ manifestOn ROOT (tree (world s)) e name = JNull.
Proof.
  rewrite <- listInstalledVersions_faults_iff.
  destruct (Tree.lookup (flagPath ROOT e) (tree (world s))) as [n|] eqn:F.
  - rewrite updateEntry_flagged by congruence. simpl.
    split; [intros [err H]; discriminate|intros [H _]; discriminate].
  - destruct (updateEntry_unflagged ROOT e s F) as (reads & _ & ->). simpl.
    destruct (resultOn (listInstalledVersions ROOT e) (tree (world s)))
      as [versions|err] eqn:V.
    + destruct (chosen_returns versions (scan_canonical ROOT e _ versions V))
        as [r ->].
      split; [intros [err H]; discriminate|intros [_ [err H]]; discriminate].
    + simpl. split; eauto.
Qed.

(** X6. What [listInstalledVersions] does on every disk. It throws exactly
    when some directory of the extension with a valid version name holds a
    manifest that is the document [null]; otherwise it returns, and an entry
    is returned exactly when it is built from a name listed in the
    extension's root whose manifest (an empty object when it cannot be read)
    declares the extension id and the canonical version, both as strings.
    It lists nothing but the root and reads nothing but manifests. *)
Theorem listInstalledVersions_exact (ROOT : Path) (e : string) (s : State) :
  let t := tree (world s) in
  let run := listInstalledVersions ROOT e s in
  ((exists err, fst run = Throw err) <->
   exists name info,
     In name (listing t (PathLib.join ROOT [e]))
     /\ versionInfoOf e name = Some info
     /\ manifestOn ROOT t e name = JNull)
  /\ (forall versions,
        fst run = Ok versions ->
        forall info,
          In info versions <->
          exists name,
            In name (listing t (PathLib.join ROOT [e]))
            /\ versionInfoOf e name = Some info
            /\ declares (manifestOn ROOT t e name) e (version info))
  /\ world (snd run) = world s
  /\ pending (snd run) = pending s
  /\ exists reads, forallb isRead reads = true
                   /\ calls (snd run) = calls s ++ reads.
Proof.
  cbv zeta.
  rewrite (ReadOnly_result _ s (ReadOnly_listInstalledVersions ROOT e)).
  split; [apply listInstalledVersions_faults_iff|].
  split; [intros versions; apply listInstalledVersions_candidates|].
  apply ReadOnly_state, ReadOnly_listInstalledVersions.
Qed.

Lemma canonical_valid (c : string) : canonical c -> Semver.valid c = Some c.
Proof.
  intros (v & P & F & _). unfold Semver.valid. now rewrite P, F.
Qed.

(** X8. Every entry the scan returns is cut from its directory name: the
    text before the first underscore is a version for [semver.valid], the
    entry's [version] is its canonical form (which [semver.valid] maps to
    itself), and its [revision] is the rest of the name after that
    underscore, the empty string when the name has none. *)
Theorem scanned_entry_of_directory_name (ROOT : Path) (e : string) (s : State)
    (versions : list VersionInfo) (info : VersionInfo) :
  fst (listInstalledVersions ROOT e s) = Ok versions ->
  In info versions ->
  extensionId info = e
  /\ In (versionString info) (listing (tree (world s)) (PathLib.join ROOT [e]))
  /\ Semver.valid (version info) = Some (version info)
  /\ exists first,
       lacks "_" first = true
       /\ Semver.valid first = Some (version info)
       /\ (versionString info = first /\ revision info = ""
           \/ versionString info = (first ++ "_" ++ revision info)%string).
Proof.
  intros V Hin.
  rewrite (ReadOnly_result _ s (ReadOnly_listInstalledVersions ROOT e)) in V.
  apply (listInstalledVersions_candidates ROOT e _ versions V) in Hin
    as (name & Hname & Hinfo & _).
  pose proof (versionInfoOf_canonical e name info Hinfo) as C.
  unfold versionInfoOf in Hinfo.
  pose proof (join_split "_" name) as J.
  assert (forallb (lacks "_") (Str.split "_" name) = true) as L.
  { clear. induction name as [|c name IH]; [reflexivity|]. simpl.
    destruct (Ascii.eqb c "_") eqn:E; [exact IH|].
    destruct (Str.split "_" name) as [|w ws]; simpl in *.
    - unfold lacks. simpl. now rewrite E.
    - unfold lacks in *. simpl. now rewrite E. }
  pose proof (split_nonempty "_" name) as NE.
  destruct (Str.split "_" name) as [|first rest]; [congruence|].
  simpl in Hinfo, L. apply andb_true_iff in L as [L _].
  destruct (Semver.valid first) as [c|] eqn:Vf; [|discriminate].
  inversion Hinfo; subst info; clear Hinfo. simpl in *.
  repeat split; auto; [now apply canonical_valid|].
  exists first. repeat split; auto.
  destruct rest as [|r rest]; [left|right]; auto.
Qed.

(** X8 at the version 1.1.0 of [ext1]. *)
Lemma scanned_entry_of_directory_name_witness :
  let info := mkVersionInfo "ext1" "1.1.0" "r1" "1.1.0_r1" in
  let s := quiet (Example.disk [("ext1", Example.ext1)] []) in
  extensionId info = "ext1"
  /\ In (versionString info)
       (listing (tree (world s)) (PathLib.join Example.installRoot ["ext1"]))
  /\ Semver.valid (version info) = Some (version info)
  /\ exists first,
       lacks "_" first = true
       /\ Semver.valid first = Some (version info)
       /\ (versionString info = first /\ revision info = ""
           \/ versionString info = (first ++ "_" ++ revision info)%string).
Proof.
  apply (scanned_entry_of_directory_name Example.installRoot "ext1"
           (quiet (Example.disk [("ext1", Example.ext1)] []))
           [mkVersionInfo "ext1" "1.0.0" "r1" "1.0.0_r1";
            mkVersionInfo "ext1" "1.1.0" "r1" "1.1.0_r1"]).
  - vm_compute. reflexivity.
  - right. left. reflexivity.
Defined.

Lemma flag_of_no_directory (ROOT : Path) (e : string) (t : Node) :
  isDirectory t (PathLib.join ROOT [e]) = false ->
  Tree.lookup (flagPath ROOT e) t = None.
Proof.
  unfold isDirectory, flagPath. intros H.
  rewrite join_flag by apply join_names. rewrite lookup_app.
  destruct (Tree.lookup (PathLib.join ROOT [e]) t) as [[c|es]|];
    [reflexivity|discriminate|reflexivity].
Qed.

Lemma scan_of_no_directory (ROOT : Path) (e : string) (t : Node) :
  isDirectory t (PathLib.join ROOT [e]) = false ->
  resultOn (listInstalledVersions ROOT e) t = Ok [].
Proof.
  unfold isDirectory. intros H. rewrite listInstalledVersions_result.
  unfold listing.
  destruct (Tree.lookup (PathLib.join ROOT [e]) t) as [[c|es]|];
    [reflexivity|discriminate|reflexivity].
Qed.

(** X9. For an extension id whose root is no directory (nothing is there,
    or a file is) the calls degrade quietly: [isSetForRemoval] answers
    [false], the scan returns the empty array, and [updateEntry] returns
    [undefined] after reading calls only, with no removal started and the
    disk as it was. *)
Theorem unknown_extension_is_left_alone (ROOT : Path) (e : string) (s : State) :
  isDirectory (tree (world s)) (PathLib.join ROOT [e]) = false ->
  fst (isSetForRemoval (PathLib.join ROOT [e]) s) = Ok false
  /\ fst (listInstalledVersions ROOT e s) = Ok []
  /\ fst (updateEntry ROOT e s) = Ok None
  /\ world (snd (updateEntry ROOT e s)) = world s
  /\ pending (snd (updateEntry ROOT e s)) = pending s
  /\ exists reads, forallb isRead reads = true
                   /\ calls (snd (updateEntry ROOT e s)) = calls s ++ reads.
Proof.
  intros D.
  pose proof (flag_of_no_directory ROOT e _ D) as F.
  pose proof (scan_of_no_directory ROOT e _ D) as V.
  split.
  { unfold isSetForRemoval, Fs.existsSync. simpl. fold (flagPath ROOT e).
    now rewrite F. }
  split.
  { now rewrite (ReadOnly_result _ s (ReadOnly_listInstalledVersions ROOT e)). }
  destruct (updateEntry_unflagged ROOT e s F) as (reads & Hr & ->).
  rewrite V. simpl. repeat split. exists reads. now rewrite app_nil_r.
Qed.

(** X9 at an extension id that is not installed. *)
Lemma unknown_extension_is_left_alone_witness :
  let s := quiet (Example.disk [("ext1", Example.ext1)] []) in
  fst (isSetForRemoval (PathLib.join Example.installRoot ["missing"]) s) = Ok false
  /\ fst (listInstalledVersions Example.installRoot "missing" s) = Ok []
  /\ fst (updateEntry Example.installRoot "missing" s) = Ok None
  /\ world (snd (updateEntry Example.installRoot "missing" s)) = world s
  /\ pending (snd (updateEntry Example.installRoot "missing" s)) = pending s
  /\ exists reads, forallb isRead reads = true
                   /\ calls (snd (updateEntry Example.installRoot "missing" s))
                      = calls s ++ reads.
Proof.
  apply (unknown_extension_is_left_alone Example.installRoot "missing"
           (quiet (Example.disk [("ext1", Example.ext1)] []))).
  vm_compute. reflexivity.
Defined.

(** ** Loading what the scan found *)

Lemma loadTranslatedManifest_run
    (ROOT : Path) (sanitizePathValue : Json -> Result string)
    (translatedManifest : Json -> Json -> Result Json)
    (e v locale : string) (s : State) (manifest : Json) :
  documentAt (tree (world s))
    (PathLib.join (PathLib.join ROOT [e; v]) ["manifest.json"]) = Some manifest ->
  exists s',
    loadTranslatedManifest ROOT sanitizePathValue translatedManifest e v locale s
    = (translatedManifest
         (messagesBySpec sanitizePathValue (tree (world s))
            (PathLib.join ROOT [e; v]) manifest locale) manifest, s')
    /\ world s' = world s /\ pending s' = pending s.
Proof.
  intros Hm. set (rootPath := PathLib.join ROOT [e; v]) in *.
  unfold loadTranslatedManifest, messagesBySpec. fold rootPath.
  unfold bind at 1. rewrite readJsonSync_run, Hm.
  unfold bind at 1, tryCatch at 1. rewrite readJsonSync_run.
  change (tree (world (record _ s))) with (tree (world s)).
  destruct (documentAt (tree (world s))
              (PathLib.join rootPath ["_locales"; locale; "messages.json"]))
    as [found|].
  - unfold lift. eexists. split; [reflexivity|]. simpl. auto.
  - match goal with
    | |- context [tryCatch ?m ?h ?s1] =>
        destruct (defaultMessages_run sanitizePathValue rootPath manifest s1)
          as (R & W & P)
    end.
    destruct (Tree.lookup _ (tree (world s))) as [[c|es]|];
      match goal with
      | |- context [tryCatch ?m ?h ?s1] =>
          destruct (tryCatch m h s1) as [r s2]; simpl in *; subst r;
          unfold lift; eexists; split; [reflexivity|]; auto
      end.
Qed.

(** X7. A version the scan returns can be loaded. [readManifest] and
    [loadTranslatedManifest] read the same [manifest.json], the one whose
    declared id and version made the scan keep the directory, so the
    unguarded read of [loadTranslatedManifest] does not throw there: the
    call returns what [translatedManifest] makes of that manifest and of the
    message bundle, and changes nothing on the disk. *)
Theorem scanned_version_loads
    (ROOT : Path) (sanitizePathValue : Json -> Result string)
    (translatedManifest : Json -> Json -> Result Json)
    (e locale : string) (s : State) (versions : list VersionInfo)
    (info : VersionInfo) :
  fst (listInstalledVersions ROOT e s) = Ok versions ->
  In info versions ->
  let run := loadTranslatedManifest ROOT sanitizePathValue translatedManifest
               e (versionString info) locale s in
  exists manifest,
    fst (readManifest ROOT e (versionString info) s) = Ok manifest
    /\ declares manifest e (version info)
    /\ fst run
       = translatedManifest
           (messagesBySpec sanitizePathValue (tree (world s))
              (resolvePath ROOT e (versionString info)) manifest locale)
           manifest
    /\ world (snd run) = world s
    /\ pending (snd run) = pending s.
Proof.
  intros V Hin run. subst run.
  rewrite (ReadOnly_result _ s (ReadOnly_listInstalledVersions ROOT e)) in V.
  apply (listInstalledVersions_candidates ROOT e _ versions V) in Hin
    as (name & _ & Hinfo & D).
  assert (versionString info = name) as ->.
  { unfold versionInfoOf in Hinfo. destruct (Semver.valid _); [|discriminate].
    now inversion Hinfo. }
  rewrite (ReadOnly_result _ s (ReadOnly_readManifest ROOT e name)),
    readManifest_result.
  exists (manifestOn ROOT (tree (world s)) e name).
  split; [reflexivity|]. split; [exact D|].
  unfold manifestOn in *.
  destruct (documentAt (tree (world s))
              (PathLib.join ROOT [e; name; "manifest.json"]))
    as [manifest|] eqn:Hm.
  - change [e; name; "manifest.json"] with ([e; name] ++ ["manifest.json"]) in Hm.
    rewrite <- join_join in Hm.
    destruct (loadTranslatedManifest_run ROOT sanitizePathValue
                translatedManifest e name locale s manifest Hm)
      as (s' & -> & W & P).
    unfold resolvePath. simpl. auto.
  - destruct D as [D _]. discriminate D.
Qed.

(** X7 at the version 1.0.0 of [ext1]. *)
Lemma scanned_version_loads_witness :
  let s := quiet (Example.disk [("ext1", Example.ext1)] []) in
  let run := loadTranslatedManifest Example.installRoot Example.sanitize
               Example.translate "ext1" "1.0.0_r1" "en" s in
  exists manifest,
    fst (readManifest Example.installRoot "ext1" "1.0.0_r1" s) = Ok manifest
    /\ declares manifest "ext1" "1.0.0"
    /\ fst run
       = Example.translate
           (messagesBySpec Example.sanitize (tree (world s))
              (resolvePath Example.installRoot "ext1" "1.0.0_r1") manifest "en")
           manifest
    /\ world (snd run) = world s
    /\ pending (snd run) = pending s.
Proof.
  apply (scanned_version_loads Example.installRoot Example.sanitize
           Example.translate "ext1" "en"
           (quiet (Example.disk [("ext1", Example.ext1)] []))
           [mkVersionInfo "ext1" "1.0.0" "r1" "1.0.0_r1";
            mkVersionInfo "ext1" "1.1.0" "r1" "1.1.0_r1"]
           (mkVersionInfo "ext1" "1.0.0" "r1" "1.0.0_r1")).
  - vm_compute. reflexivity.
  - left. reflexivity.
Defined.

(** ** The installed extension ids and the removal *)

Lemma assoc_None {A : Type} (k : string) (l : list (string * A)) :
  assoc k l = None <-> ~ In k (map fst l).
Proof.
  induction l as [|[k' v] l IH]; simpl; [tauto|].
  destruct (String.eqb_spec k' k) as [->|N].
  - split; [discriminate|]. intros H. destruct H. now left.
  - rewrite IH. tauto.
Qed.

Lemma join_plain (p : Path) (name : string) :
  forallb isName p = true -> isName name = true -> lacks "/" name = true ->
  PathLib.join p [name] = p ++ [name].
Proof.
  intros Hp Hn Hl. unfold PathLib.join. simpl.
  rewrite (split_lacks "/" name Hl). simpl.
  apply normalizeSegments_of_names.
  rewrite forallb_app, Hp. simpl. now rewrite Hn.
Qed.

Lemma listInstalledExtensionIds_run (ROOT : Path) (s : State) :
  fst (listInstalledExtensionIds ROOT s) = Ok (listing (tree (world s)) ROOT).
Proof.
  unfold listInstalledExtensionIds, tryCatch, Fs.readdirSync, listing.
  destruct (Tree.lookup ROOT (tree (world s))) as [[c|es]|]; reflexivity.
Qed.

Lemma listing_child (t : Node) (p : Path) (name : string) :
  In name (listing t p) <-> Tree.lookup (p ++ [name]) t <> None.
Proof.
  unfold listing. rewrite lookup_app.
  destruct (Tree.lookup p t) as [[c|es]|]; simpl; try tauto.
  pose proof (assoc_None name es) as A.
  destruct (assoc name es) as [child|].
  - split; [discriminate|]. intros _.
    destruct (in_dec string_dec name (map fst es)) as [I|I]; [exact I|].
    apply A in I. discriminate.
  - split; [|tauto]. intros I _. now apply (proj1 A).
Qed.

(** X10. An extension flagged for removal is still among the installed ids
    when [updateEntry] returns, since the removal is only started then; once
    the removal has run, with nothing to stop it, the id is no longer
    listed. (The install path and the id hold plain names.) *)
Theorem removed_extension_leaves_the_listing (ROOT : Path) (e : string)
    (w : World) :
  forallb isName ROOT = true -> isName e = true -> lacks "/" e = true ->
  Tree.lookup (flagPath ROOT e) (tree w) <> None ->
  removable w (ROOT ++ [e]) = true ->
  let returned := snd (updateEntry ROOT e (quiet w)) in
  (exists ids, fst (listInstalledExtensionIds ROOT returned) = Ok ids
               /\ In e ids)
  /\ (exists ids, fst (listInstalledExtensionIds ROOT (quiet (settle returned)))
                  = Ok ids
                  /\ ~ In e ids).
Proof.
  intros HR He Hl F R returned. subst returned.
  pose proof (join_plain ROOT e HR He Hl) as J.
  rewrite updateEntry_flagged by exact F.
  rewrite !listInstalledExtensionIds_run. unfold settle. simpl. rewrite J.
  split; eexists; (split; [reflexivity|]); rewrite listing_child.
  - unfold flagPath in F. rewrite J in F.
    rewrite join_flag in F by (rewrite forallb_app, HR; simpl; now rewrite He).
    rewrite lookup_app in F.
    destruct (Tree.lookup (ROOT ++ [e]) (tree w)); congruence.
  - intros G. apply G. unfold removable in R.
    destruct (ROOT ++ [e]) as [|x p] eqn:E; [discriminate|].
    apply remove_gone; [discriminate|exact R].
Qed.

(** X10 at the flagged [ext2]. *)
Lemma removed_extension_leaves_the_listing_witness :
  let w := Example.disk [("ext1", Example.ext1); ("ext2", Example.ext2)] [] in
  let returned := snd (updateEntry Example.installRoot "ext2" (quiet w)) in
  (exists ids, fst (listInstalledExtensionIds Example.installRoot returned) = Ok ids
               /\ In "ext2" ids)
  /\ (exists ids,
        fst (listInstalledExtensionIds Example.installRoot
               (quiet (settle returned))) = Ok ids
        /\ ~ In "ext2" ids).
Proof.
  apply (removed_extension_leaves_the_listing Example.installRoot "ext2"
           (Example.disk [("ext1", Example.ext1); ("ext2", Example.ext2)] []));
    try reflexivity.
  vm_compute. discriminate.
Defined.

(** ** What the removal flag leaves as it was *)

Lemma assoc_replaceEntry_other (s x : string) (n : Node)
    (l : list (string * Node)) :
  x <> s -> assoc x (Tree.replaceEntry s n l) = assoc x l.
Proof.
  intros N. induction l as [|[name child] l IH]; simpl; [reflexivity|].
  destruct (String.eqb_spec name s) as [->|Ns]; simpl.
  - destruct (String.eqb_spec s x); [congruence|reflexivity].
  - now rewrite IH.
Qed.

Lemma assoc_app_other (s x : string) (n : Node) (l : list (string * Node)) :
  x <> s -> assoc x (l ++ [(s, n)]) = assoc x l.
Proof.
  intros N. induction l as [|[name child] l IH]; simpl.
  - destruct (String.eqb_spec s x); [congruence|reflexivity].
  - now rewrite IH.
Qed.

Lemma map_fst_replaceEntry (s : string) (n : Node) (l : list (string * Node)) :
  map fst (Tree.replaceEntry s n l) = map fst l.
Proof.
  induction l as [|[name child] l IH]; simpl; [reflexivity|].
  destruct (name =? s)%string; simpl; [reflexivity|now rewrite IH].
Qed.

Lemma replaceEntry_idempotent (s : string) (n : Node)
    (l : list (string * Node)) :
  Tree.replaceEntry s n (Tree.replaceEntry s n l) = Tree.replaceEntry s n l.
Proof.
  induction l as [|[name child] l IH]; simpl; [reflexivity|].
  destruct (name =? s)%string eqn:E; simpl; rewrite E; [reflexivity|].
  now rewrite IH.
Qed.

Lemma replaceEntry_app_new (s : string) (n : Node) (l : list (string * Node)) :
  assoc s l = None ->
  Tree.replaceEntry s n (l ++ [(s, n)]) = l ++ [(s, n)].
Proof.
  induction l as [|[name child] l IH]; simpl.
  - now rewrite String.eqb_refl.
  - destruct (name =? s)%string; [discriminate|]. intros H. now rewrite IH.
Qed.

Lemma writeFile_idempotent (p : Path) (c : Content) :
  forall t t', Tree.writeFile p c t = Some t' -> Tree.writeFile p c t' = Some t'.
Proof.
  induction p as [|s p IH]; intros t t' H; [discriminate|].
  destruct t as [x|es]; [destruct p; discriminate|].
  destruct p as [|s2 p].
  - simpl in H. destruct (assoc s es) as [[x|d]|] eqn:A; inversion H; subst;
      simpl.
    + rewrite (assoc_replaceEntry s _ _ es A). now rewrite replaceEntry_idempotent.
    + rewrite (assoc_app_new s _ es A). now rewrite replaceEntry_app_new.
  - rewrite writeFile_below in H.
    destruct (assoc s es) as [child|] eqn:A; [|discriminate].
    destruct (Tree.writeFile (s2 :: p) c child) as [child'|] eqn:W; [|discriminate].
    inversion H; subst. rewrite writeFile_below.
    rewrite (assoc_replaceEntry s _ _ es A), (IH child child' W).
    now rewrite replaceEntry_idempotent.
Qed.

Lemma writeFile_frame (q : Path) (s : string) (c : Content) :
  forall t t' p,
    Tree.writeFile (q ++ [s]) c t = Some t' ->
    (p <> q ++ [s] -> documentAt t' p = documentAt t p)
    /\ (listing t' p = listing t p \/ listing t' p = listing t p ++ [s]).
Proof.
  induction q as [|y q IH]; intros t t' p W.
  - simpl in W. destruct t as [x|es]; [discriminate|].
    destruct p as [|x p].
    + split; [unfold documentAt; simpl;
              destruct (assoc s es) as [[z|d]|]; inversion W; reflexivity|].
      unfold listing. simpl.
      destruct (assoc s es) as [[z|d]|]; inversion W; subst; simpl.
      * left. apply map_fst_replaceEntry.
      * right. now rewrite map_app.
    + destruct (assoc s es) as [[z|d]|] eqn:A; inversion W; subst; clear W;
        unfold documentAt, listing; rewrite !lookup_cons;
        destruct (String.eqb_spec x s) as [->|N].
      * rewrite (assoc_replaceEntry s _ _ es A), A.
        destruct p; [split; [intros Np; now destruct Np|now left]|].
        simpl. auto.
      * rewrite (assoc_replaceEntry_other s x _ es N). auto.
      * rewrite (assoc_app_new s _ es A), A.
        destruct p; [split; [intros Np; now destruct Np|now left]|].
        simpl. auto.
      * rewrite (assoc_app_other s x _ es N). auto.
  - change ((y :: q) ++ [s]) with (y :: (q ++ [s])) in *.
    destruct t as [x|es]; [destruct (q ++ [s]); discriminate W|].
    destruct (q ++ [s]) as [|x2 rest] eqn:Q; [destruct q; discriminate Q|].
    rewrite writeFile_below in W.
    destruct (assoc y es) as [child|] eqn:A; [|discriminate W].
    destruct (Tree.writeFile (x2 :: rest) c child) as [child'|] eqn:W';
      [|discriminate W].
    inversion W; subst; clear W.
    destruct p as [|x p].
    + split; [reflexivity|]. left. unfold listing. simpl.
      apply map_fst_replaceEntry.
    + unfold documentAt, listing. rewrite !lookup_cons.
      destruct (String.eqb_spec x y) as [->|N].
      * rewrite (assoc_replaceEntry y _ _ es A), A.
        destruct (IH child child' p W') as [D L].
        split; [|exact L]. intros Np. apply D. congruence.
      * rewrite (assoc_replaceEntry_other y x _ es N). auto.
Qed.

Lemma defined_app {A : Type} (a b : list (option A)) :
  defined (a ++ b) = defined a ++ defined b.
Proof.
  induction a as [|[x|] a IH]; simpl; [reflexivity| |exact IH].
  now rewrite IH.
Qed.

Lemma filterOn_ext {A : Type} (f : A -> Node -> Result bool) (t t' : Node)
    (l : list A) :
  (forall x, f x t' = f x t) -> filterOn f t' l = filterOn f t l.
Proof.
  intros H. induction l as [|x l IH]; simpl; [reflexivity|].
  now rewrite H, IH.
Qed.

Lemma manifest_path (ROOT : Path) (e v : string) :
  PathLib.join ROOT [e; v; "manifest.json"]
  = PathLib.join ROOT [e; v] ++ ["manifest.json"].
Proof.
  change [e; v; "manifest.json"] with ([e; v] ++ ["manifest.json"]).
  rewrite <- join_join. apply join_plain; [apply join_names|reflexivity..].
Qed.

Lemma scan_frame (ROOT : Path) (e : string) (t t' : Node) :
  (forall e' v, manifestOn ROOT t' e' v = manifestOn ROOT t e' v) ->
  (listing t' (PathLib.join ROOT [e]) = listing t (PathLib.join ROOT [e])
   \/ listing t' (PathLib.join ROOT [e])
      = listing t (PathLib.join ROOT [e]) ++ [UNINSTALL_FLAG]) ->
  resultOn (listInstalledVersions ROOT e) t'
  = resultOn (listInstalledVersions ROOT e) t.
Proof.
  intros Hm Hl. rewrite !listInstalledVersions_result.
  assert (defined (map (versionInfoOf e) (listing t' (PathLib.join ROOT [e])))
          = defined (map (versionInfoOf e) (listing t (PathLib.join ROOT [e]))))
    as ->.
  { destruct Hl as [->| ->]; [reflexivity|].
    rewrite map_app, defined_app. simpl.
    change (versionInfoOf e UNINSTALL_FLAG) with (@None VersionInfo).
    simpl. apply app_nil_r. }
  apply filterOn_ext. intros info.
  now rewrite !manifestMatches_result, Hm.
Qed.

(** X11. Flagging an extension for removal changes nothing that the read
    side sees, for any extension: [readManifest] and [listInstalledVersions]
    return after [setForRemoval] what they returned before it, since the
    name of the flag is no version and no manifest. A flagged extension
    keeps its versions until [updateEntry] runs. *)
Theorem setForRemoval_keeps_the_versions (ROOT : Path) (e : string) (s : State) :
  fst (setForRemoval ROOT e s) = Ok tt ->
  forall other,
    fst (listInstalledVersions ROOT other (snd (setForRemoval ROOT e s)))
    = fst (listInstalledVersions ROOT other s)
    /\ forall v,
         fst (readManifest ROOT other v (snd (setForRemoval ROOT e s)))
         = fst (readManifest ROOT other v s).
Proof.
  unfold setForRemoval, Fs.writeFileSync. rewrite setForRemoval_path.
  destruct (Tree.writeFile _ _ (tree (world s))) as [t'|] eqn:W;
    [|discriminate].
  intros _ other. simpl.
  rewrite !(ReadOnly_result _ _ (ReadOnly_listInstalledVersions ROOT other)).
  simpl.
  assert (forall e' v, manifestOn ROOT t' e' v
                       = manifestOn ROOT (tree (world s)) e' v) as Hm.
  { intros e' v. unfold manifestOn. rewrite manifest_path.
    destruct (writeFile_frame _ _ _ _ _
                (PathLib.join ROOT [e'; v] ++ ["manifest.json"]) W) as [D _].
    rewrite D; [reflexivity|]. intros E. apply app_inj_tail in E as [_ E].
    discriminate E. }
  split.
  - apply scan_frame; [exact Hm|].
    apply (writeFile_frame _ _ _ _ _ (PathLib.join ROOT [other]) W).
  - intros v.
    rewrite !(ReadOnly_result _ _ (ReadOnly_readManifest ROOT other v)).
    simpl. now rewrite !readManifest_result, Hm.
Qed.

(** X11 at [ext1], flagged and then scanned. *)
Lemma setForRemoval_keeps_the_versions_witness :
  let s := quiet (Example.disk [("ext1", Example.ext1)] []) in
  fst (listInstalledVersions Example.installRoot "ext1"
         (snd (setForRemoval Example.installRoot "ext1" s)))
  = fst (listInstalledVersions Example.installRoot "ext1" s)
  /\ forall v,
       fst (readManifest Example.installRoot "ext1" v
              (snd (setForRemoval Example.installRoot "ext1" s)))
       = fst (readManifest Example.installRoot "ext1" v s).
Proof.
  apply (setForRemoval_keeps_the_versions Example.installRoot "ext1"
           (quiet (Example.disk [("ext1", Example.ext1)] []))).
  vm_compute. reflexivity.
Defined.

(** X12. Flagging twice is flagging once: a second [setForRemoval] of the
    same extension returns as the first did and leaves the disk the first
    one left, with the flag in it. *)
Theorem setForRemoval_twice (ROOT : Path) (e : string) (s : State) :
  fst (setForRemoval ROOT e s) = Ok tt ->
  let once := snd (setForRemoval ROOT e s) in
  fst (setForRemoval ROOT e once) = Ok tt
  /\ world (snd (setForRemoval ROOT e once)) = world once
  /\ Tree.lookup (flagPath ROOT e) (tree (world once))
     = Some (File (Text UNINSTALL_FLAG)).
Proof.
  unfold setForRemoval, Fs.writeFileSync.
  destruct (Tree.writeFile _ _ (tree (world s))) as [t'|] eqn:W;
    [|discriminate].
  intros _. simpl. rewrite (writeFile_idempotent _ _ _ _ W). simpl.
  repeat split. rewrite flagPath_joined. exact (lookup_writeFile _ _ _ _ W).
Qed.

(** X12 at [ext1]. *)
Lemma setForRemoval_twice_witness :
  let once := snd (setForRemoval Example.installRoot "ext1"
                     (quiet (Example.disk [("ext1", Example.ext1)] []))) in
  fst (setForRemoval Example.installRoot "ext1" once) = Ok tt
  /\ world (snd (setForRemoval Example.installRoot "ext1" once)) = world once
  /\ Tree.lookup (flagPath Example.installRoot "ext1") (tree (world once))
     = Some (File (Text UNINSTALL_FLAG)).
Proof.
  apply (setForRemoval_twice Example.installRoot "ext1"
           (quiet (Example.disk [("ext1", Example.ext1)] []))).
  vm_compute. reflexivity.
Defined.

(** ** The mailto link of the command line *)




Lemma onMailboxesWindowJsLoaded_positional (m : JsValue)
    (l : list Startup.Positional) (opened : list JsValue) :
  Startup.truthy m = false ->
  Startup.onMailboxesWindowJsLoaded (Startup.mkArgv m l, opened)
  = match Startup.findIndex Startup.startsWithMailto l with
    | Throw e => Throw e
    | Ok None => Ok (Startup.mkArgv m l, opened)
    | Ok (Some index) =>
        Ok (Startup.mkArgv m (firstn 1 l),
            opened ++ [Startup.argument (nth_error l index)])
    end.
Proof.
  intros H. unfold Startup.onMailboxesWindowJsLoaded.
  cbn [Startup.mailto Startup.positional]. now rewrite H.
Qed.




(** X14. A numeric argument stops the handler. With no truthy [--mailto],
    when a number stands in [argv._] before any string that starts with
    [mailto], the handler throws a [TypeError] from [a.indexOf]: no link is
    opened, not even one that follows the number, and since [argv] is left
    as it was the handler throws again on every later load. *)
Theorem numeric_argument_stops_the_handler (argv : Startup.Argv)
    (before after : list Startup.Positional) (n : Z) (opened : list JsValue) :
  Startup.truthy (Startup.mailto argv) = false ->
  Startup.positional argv = before ++ Startup.Number n :: after ->
  forallb Startup.plainWord before = true ->
  forall k,
    Startup.loaded (S k) (argv, opened)
    = Throw (TypeError "a.indexOf is not a function").
Proof.
  destruct argv as [m l]. cbn [Startup.mailto Startup.positional].
  intros T -> Hb k. cbn [Startup.loaded].
  rewrite (onMailboxesWindowJsLoaded_positional _ _ _ T).
  assert (Startup.findIndex Startup.startsWithMailto
            (before ++ Startup.Number n :: after)
          = Throw (TypeError "a.indexOf is not a function")) as ->;
    [|reflexivity].
  induction before as [|[s|z] before IH]; simpl in *;
    [reflexivity| |discriminate].
  apply andb_true_iff in Hb as [H1 H2]. apply negb_true_iff in H1.
  now rewrite H1, (IH H2).
Qed.

(** X14 at a command line whose second argument is a number. *)
Lemma numeric_argument_stops_the_handler_witness :
  Startup.loaded 3
    (Startup.mkArgv None
       [Startup.Word "/usr/bin/wavebox"; Startup.Number 42;
        Startup.Word "mailto:a@example.org"], [])
  = Throw (TypeError "a.indexOf is not a function").
Proof.
  apply (numeric_argument_stops_the_handler
           (Startup.mkArgv None
              [Startup.Word "/usr/bin/wavebox"; Startup.Number 42;
               Startup.Word "mailto:a@example.org"])
           [Startup.Word "/usr/bin/wavebox"]
           [Startup.Word "mailto:a@example.org"] 42 []); reflexivity.
Defined.
